(** * makeran: embedded-metadata store, fingerprint, run coordination

    A shallow embedding of [index.js] (the first of the two near-identical
    copies held in that file; the second differs only in how the child's
    completion is awaited).

    JavaScript strings are sequences of UTF-16 code units: a string is a
    [list N] here and [length] is JavaScript's [.length].  Indices are [Z],
    with [-1] for "not found", as [String.prototype.indexOf] returns them.
    The value map of a lookup object is an association list in insertion
    order, because [for (key in obj)] enumerates in that order (after the
    array-index keys); the two Symbol-keyed side tables travel with it in a
    record.  The objects used as sets ([foundKeys], [filesPending],
    [filesPendingTrigger]) are [gset]s. *)

From Stdlib Require Import ZArith NArith Lia String Ascii DecimalString.
From stdpp Require Import base list gmap.

Local Open Scope Z_scope.

(** ** Strings *)

Definition str := list N.

Definition lit (s : string) : str :=
  map N_of_ascii (list_ascii_of_string s).

Definition len (s : str) : Z := Z.of_nat (length s).

(** [s.startsWith(pat)], the test behind every search below. *)
Fixpoint startsWith (pat s : str) : bool :=
  match pat, s with
  | [], _ => true
  | _ :: _, [] => false
  | p :: pat', c :: s' => (p =? c)%N && startsWith pat' s'
  end.

(** Offset of the first occurrence of [pat] in [s]. *)
Fixpoint find (pat s : str) : option nat :=
  if startsWith pat s then Some 0%nat
  else match s with
       | [] => None
       | _ :: s' => S <$> find pat s'
       end.

(** [s.indexOf(pat, from)]: [from] is clamped to [0 .. s.length]. *)
Definition indexOf (s pat : str) (from : Z) : Z :=
  let k := Z.to_nat (Z.min (Z.max from 0) (len s)) in
  match find pat (drop k s) with
  | Some i => Z.of_nat (k + i)
  | None => -1
  end.

(** [s.slice(a, b)]: a negative bound counts from the end, both are clamped,
    and the result is empty when the bounds cross. *)
Definition sliceBound (s : str) (i : Z) : Z :=
  if i <? 0 then Z.max (len s + i) 0 else Z.min i (len s).

Definition slice (s : str) (a b : Z) : str :=
  take (Z.to_nat (sliceBound s b - sliceBound s a))
       (drop (Z.to_nat (sliceBound s a)) s).

(** [s.slice(a)] *)
Definition sliceFrom (s : str) (a : Z) : str := slice s a (len s).

(** ** Objects used as ordered maps *)

Definition Obj := list (str * str).

Fixpoint objGet (o : Obj) (k : str) : option str :=
  match o with
  | [] => None
  | (k', v) :: o' => if bool_decide (k' = k) then Some v else objGet o' k
  end.

(** [k in o] *)
Definition objHas (o : Obj) (k : str) : bool :=
  match objGet o k with Some _ => true | None => false end.

(** [o[k] = v]: an existing property keeps its place, a new one goes last. *)
Fixpoint objSet (o : Obj) (k v : str) : Obj :=
  match o with
  | [] => [(k, v)]
  | (k', v') :: o' =>
      if bool_decide (k' = k) then (k', v) :: o' else (k', v') :: objSet o' k v
  end.

(** [delete o[k]] *)
Fixpoint objDelete (o : Obj) (k : str) : Obj :=
  match o with
  | [] => []
  | (k', v') :: o' =>
      if bool_decide (k' = k) then o' else (k', v') :: objDelete o' k
  end.

(** Property enumeration ([for-in], [Object.keys]): the keys that are
    canonical array indices (at most 2^32 - 2) come first in ascending
    numeric order, the others follow in insertion order. *)
Definition digitVal (c : N) : option N :=
  if ((48 <=? c) && (c <=? 57))%N then Some (c - 48)%N else None.

Fixpoint decimalValue (acc : N) (s : str) : option N :=
  match s with
  | [] => Some acc
  | c :: s' =>
      match digitVal c with
      | Some d => decimalValue (10 * acc + d)%N s'
      | None => None
      end
  end.

Definition arrayIndex (k : str) : option N :=
  match k with
  | [] => None
  | c :: rest =>
      if ((c =? 48)%N && negb (bool_decide (rest = []))) then None
      else match decimalValue 0 k with
           | Some n => if (n <=? 4294967294)%N then Some n else None
           | None => None
           end
  end.

Fixpoint insertIndexKey (n : N) (k : str) (l : list (N * str)) : list (N * str) :=
  match l with
  | [] => [(n, k)]
  | (m, k') :: l' =>
      if (n <? m)%N then (n, k) :: l else (m, k') :: insertIndexKey n k l'
  end.

Fixpoint indexKeys (o : Obj) : list (N * str) :=
  match o with
  | [] => []
  | (k, _) :: o' =>
      match arrayIndex k with
      | Some n => insertIndexKey n k (indexKeys o')
      | None => indexKeys o'
      end
  end.

Fixpoint nameKeys (o : Obj) : list str :=
  match o with
  | [] => []
  | (k, _) :: o' =>
      match arrayIndex k with
      | Some _ => nameKeys o'
      | None => k :: nameKeys o'
      end
  end.

Definition objKeys (o : Obj) : list str := (indexKeys o).*2 ++ nameKeys o.

(** ** The metadata store *)

Record Range := mkRange { key : str; value : str; start : Z; end_ : Z }.

(** The object returned by [getCommentValueLookup]: its string-keyed
    properties and the two Symbol-keyed side tables. *)
Record Lookup := mkLookup {
  values : Obj;
  ValueRanges : list Range;
  OriginalContents : str
}.

Definition newline : N := 10%N.
Definition space : N := 32%N.

Definition prefix : str := newline :: lit "/** @autorun-".
Definition suffix : str := lit " */" ++ [newline].

(** The [while(true)] scan.  Every round moves [index] forward by at least
    the length of a whole block, so [S (length contents)] rounds are never
    used up ([scanLoop_fuel] below). *)
Fixpoint scanLoop (fuel : nat) (contents : str) (index : Z)
    (outputValues : Obj) (ranges : list Range) : Obj * list Range :=
  match fuel with
  | O => (outputValues, ranges)
  | S fuel' =>
      let index := indexOf contents prefix index in
      if index <? 0 then (outputValues, ranges) else
      let endIndex := indexOf contents suffix index in
      if endIndex <? 0 then (outputValues, ranges) else
      let keyEnd := indexOf contents [space] (index + len prefix) in
      let key := slice contents (index + len prefix) keyEnd in
      let value := slice contents (keyEnd + 1) endIndex in
      scanLoop fuel' contents (endIndex + len suffix)
        (objSet outputValues key value)
        (ranges ++ [mkRange key value index (endIndex + len suffix)])
  end.

Definition getCommentValueLookup (contents : str) : Lookup :=
  let '(outputValues, ranges) :=
    scanLoop (S (length contents)) contents 0 [] [] in
  mkLookup outputValues ranges contents.

(** [value.replace(/\*\//g, "*\\/")] *)
Fixpoint escapeClose (value : str) : str :=
  match value with
  | [] => []
  | c :: rest =>
      match rest with
      | d :: rest' =>
          if ((c =? 42) && (d =? 47))%N
          then 42%N :: 92%N :: 47%N :: escapeClose rest'
          else c :: escapeClose rest
      | [] => [c]
      end
  end.

Definition formatValue (key value : str) : str :=
  prefix ++ key ++ [space] ++ escapeClose value ++ suffix.

(** One round of the first loop of [getContentsFromLookup]. *)
Definition rangeStep (valueLookup : Obj) (st : str * gset str) (r : Range)
    : str * gset str :=
  let '(contents, foundKeys) := st in
  match objGet valueLookup (key r) with
  | Some v =>
      (if bool_decide (v = value r) then contents
       else slice contents 0 (start r) ++ formatValue (key r) v
              ++ sliceFrom contents (end_ r),
       {[ key r ]} ∪ foundKeys)
  | None =>
      (slice contents 0 (start r) ++ sliceFrom contents (end_ r), foundKeys)
  end.

(** Whether a new block goes to the end of the file. *)
Definition atEnd (key value : str) : bool :=
  (60 <? length value)%nat || bool_decide (key = lit "output").

(** One round of the second loop. *)
Definition newKeyStep (valueLookup : Obj) (foundKeys : gset str)
    (contents : str) (key : str) : str :=
  if bool_decide (key ∈ foundKeys) then contents
  else match objGet valueLookup key with
       | Some value =>
           if atEnd key value then contents ++ formatValue key value
           else formatValue key value ++ contents
       | None => contents
       end.

Definition getContentsFromLookup (valueLookup : Lookup) : str :=
  let '(contents, foundKeys) :=
    fold_left (rangeStep (values valueLookup))
      (rev (ValueRanges valueLookup)) (OriginalContents valueLookup, ∅) in
  fold_left (newKeyStep (values valueLookup) foundKeys)
    (objKeys (values valueLookup)) contents.

(** Property updates on the lookup object. *)
Definition setValue (l : Lookup) (k v : str) : Lookup :=
  mkLookup (objSet (values l) k v) (ValueRanges l) (OriginalContents l).

Definition deleteValue (l : Lookup) (k : str) : Lookup :=
  mkLookup (objDelete (values l) k) (ValueRanges l) (OriginalContents l).

(** ** The fingerprint *)

Section Fingerprint.

(** [sha512.create().update(contents).hex()] *)
Variable digest : str -> str.

(** The content [getHash] feeds to the digest. *)
Definition stripped (contents : str) : str :=
  let lookup := getCommentValueLookup contents in
  getContentsFromLookup
    (fold_left deleteValue (objKeys (values lookup)) lookup).

Definition getHash (contents : str) : str := digest (stripped contents).

End Fingerprint.

(** Assigning metadata values to the parsed lookup and serializing. *)
Definition assign (l : Lookup) (V : list (str * str)) : Lookup :=
  fold_left (fun l kv => setValue l kv.1 kv.2) V l.

Definition serializeWith (contents : str) (V : list (str * str)) : str :=
  getContentsFromLookup (assign (getCommentValueLookup contents) V).

Definition metaKeys : list str :=
  [lit "lastRunHash"; lit "output"; lit "stop"].

(** Where the scan stopped, and whether it stopped at the first [break]
    (no further opening marker) rather than at the second (an opening
    marker with no closing marker after it). *)
Definition scanEnd (l : Lookup) : Z :=
  default 0 (last (map end_ (ValueRanges l))).

Definition closedScan (contents : str) : Prop :=
  indexOf contents prefix (scanEnd (getCommentValueLookup contents)) = -1.

(** ** The content seen as gaps and blocks

    [layoutOf] cuts a string the way the scan does, but on the text that is
    left rather than on indices: the gap before the next opening marker, the
    block up to and including its closing marker, and so on; what follows
    the last block is the tail. *)
Definition Layout := (list (str * str) * str)%type.

Fixpoint layoutOf (fuel : nat) (s : str) : Layout :=
  match fuel with
  | O => ([], s)
  | S fuel' =>
      match find prefix s with
      | None => ([], s)
      | Some i =>
          match find suffix (drop i s) with
          | None => ([], s)
          | Some e =>
              let '(items, t) := layoutOf fuel' (drop (i + e + 4) s) in
              ((take i s, take (e + 4) (drop i s)) :: items, t)
          end
      end
  end.

Fixpoint flatten (items : list (str * str)) (t : str) : str :=
  match items with
  | [] => t
  | (g, B) :: items' => g ++ B ++ flatten items' t
  end.

(** Key and value of a block, read as the scan reads them. *)
Definition blockKeyEnd (B : str) : nat :=
  (14 + default 0 (find [space] (drop 14 B)))%nat.

Definition blockKey (B : str) : str :=
  take (blockKeyEnd B - 14) (drop 14 B).

Definition blockValue (B : str) : str :=
  take (length B - 4 - (blockKeyEnd B + 1)) (drop (blockKeyEnd B + 1) B).

Fixpoint rangesOf (o : nat) (items : list (str * str)) : list Range :=
  match items with
  | [] => []
  | (g, B) :: items' =>
      mkRange (blockKey B) (blockValue B)
        (Z.of_nat (o + length g)) (Z.of_nat (o + length g + length B))
      :: rangesOf (o + length g + length B) items'
  end.

Definition gapFree (g : str) : Prop := find prefix g = None.

Definition tight (B : str) : Prop :=
  startsWith prefix B = true ∧ find suffix B = Some (length B - 4)%nat.

Definition wfItem (it : str * str) : Prop := gapFree it.1 ∧ tight it.2.

(** What the first loop of the serializer puts in place of a block. *)
Definition newBlock (V : Obj) (B : str) : str :=
  match objGet V (blockKey B) with
  | Some v => if bool_decide (v = blockValue B) then B
              else formatValue (blockKey B) v
  | None => []
  end.

(** The same, told from the range and the original content. *)
Definition rewriteRange (V : Obj) (contents : str) (r : Range) : str :=
  match objGet V (key r) with
  | Some v => if bool_decide (v = value r) then slice contents (start r) (end_ r)
              else formatValue (key r) v
  | None => []
  end.

(** The pieces of the content that lie outside every range, in order. *)
Fixpoint outside (contents : str) (from : Z) (rs : list Range) : list str :=
  match rs with
  | [] => [sliceFrom contents from]
  | r :: rs' => slice contents from (start r) :: outside contents (end_ r) rs'
  end.

(** [g0 ++ b1 ++ g1 ++ ... ++ bn ++ gn] *)
Fixpoint weave (gs bs : list str) : str :=
  match gs, bs with
  | g :: gs', b :: bs' => g ++ b ++ weave gs' bs'
  | g :: _, [] => g
  | [], _ => []
  end.

(** The keys of the value map that no range carries, in enumeration order,
    and the blocks the second loop makes of them. *)
Definition newKeys (l : Lookup) : list str :=
  filter (fun k => k ∉ map key (ValueRanges l)) (objKeys (values l)).

Definition blockOf (V : Obj) (k : str) : str :=
  formatValue k (default [] (objGet V k)).

Definition goesLast (V : Obj) (k : str) : bool :=
  atEnd k (default [] (objGet V k)).

(** A new key goes to the end when its value is longer than 60 code units
    or it is the [output] key. *)
Definition bulky (V : Obj) (k : str) : Prop :=
  (60 < length (default [] (objGet V k)))%nat ∨ k = lit "output".

Definition prepended (l : Lookup) : str :=
  concat (map (blockOf (values l))
    (rev (filter (fun k => ¬ bulky (values l) k) (newKeys l)))).

Definition appended (l : Lookup) : str :=
  concat (map (blockOf (values l))
    (filter (bulky (values l)) (newKeys l))).

(** The result of the first loop alone. *)
Definition rangeLoop (l : Lookup) : str * gset str :=
  fold_left (rangeStep (values l)) (rev (ValueRanges l))
    (OriginalContents l, ∅).

(** The closing sequence the serializer escapes. *)
Definition starSlash : str := [42%N; 47%N].

(** [outputValues[key] = value] for the key and value of a range. *)
Definition setRange (o : Obj) (r : Range) : Obj := objSet o (key r) (value r).

Definition setPair (o : Obj) (kv : str * str) : Obj := objSet o kv.1 kv.2.

(** A tail in which an opening marker has no closing marker after it. *)
Definition danglingTail (t : str) : Prop :=
  ∃ i, find prefix t = Some i ∧ find suffix (drop i t) = None.

Definition rewriteItems (V : Obj) (items : list (str * str)) : list (str * str) :=
  map (fun it => (it.1, newBlock V it.2)) items.

(** Blocks that follow one another without a gap. *)
Definition asItems (Bs : list str) : list (str * str) :=
  map (fun B => ([], B)) Bs.

(** Blocks that carry the same key carry the same value. *)
Definition sameKeySameValue (rs : list Range) : bool :=
  forallb (fun r1 =>
    forallb (fun r2 =>
      implb (bool_decide (key r1 = key r2))
            (bool_decide (value r1 = value r2))) rs) rs.

(** ** Running a file *)

Inductive Effect :=
| Log (msg : str)
| LogError (msg err : str)
| Fork (filePath : str)
| Kill (signal : str)
| WriteFile (filePath contents : str)
| UnhandledRejection (err : str).

(** How an [async] call settles. *)
Inductive Outcome := Returned | Threw (err : str).

(** The variables [runOnFileNameInner] closes over. *)
Record Job := mkJob {
  fileName : str;
  contents : str;
  outputValues : Lookup;
  hash : str;
  output : str;
  done : bool
}.

(** [String(code)] for an exit code; [null] when a signal ended the child. *)
Definition showCode (code : option N) : str :=
  match code with
  | Some n => lit (NilZero.string_of_uint (N.to_uint n))
  | None => lit "null"
  end.

Inductive Emitter := Proc | ProcStdout | ProcStderr.

Inductive Payload :=
| PError (err : str) | PCode (code : option N) | PData (data : str) | PNone.

(** The listeners registered on the child and its streams; the boolean
    tells whether [onDone] was called. *)
Definition onEvent (j : Job) (source : Emitter) (eventName : str) (p : Payload)
    : Job * bool :=
  let add text :=
    mkJob (fileName j) (contents j) (outputValues j) (hash j)
      (output j ++ text) (done j) in
  match source, p with
  | Proc, PError err =>
      if bool_decide (eventName = lit "error")
      then (add ([newline] ++ lit "Ending with error " ++ err ++ [newline]), true)
      else (j, false)
  | Proc, PCode code =>
      if bool_decide (eventName = lit "exit")
      then (if bool_decide (code = Some 0%N) then j
            else add ([newline] ++ lit "Exit code non-0, was " ++ showCode code
                        ++ [newline]), false)
      else (j, false)
  | ProcStdout, PNone =>
      if bool_decide (eventName = lit "end") then (j, true) else (j, false)
  | ProcStdout, PData data =>
      if bool_decide (eventName = lit "data") then (add data, false)
      else (j, false)
  | ProcStderr, PData data =>
      if bool_decide (eventName = lit "err") then (add data, false)
      else (j, false)
  | _, _ => (j, false)
  end.

(** What Node emits for a child: chunks arrive as ["data"] on either
    stream. *)
Inductive ChildEvent :=
| SpawnError (err : str)
| Exit (code : option N)
| Chunk (stream : Emitter) (data : str)
| StdoutEnd.

Definition deliver (j : Job) (e : ChildEvent) : Job * bool :=
  match e with
  | SpawnError err => onEvent j Proc (lit "error") (PError err)
  | Exit code => onEvent j Proc (lit "exit") (PCode code)
  | Chunk stream data => onEvent j stream (lit "data") (PData data)
  | StdoutEnd => onEvent j ProcStdout (lit "end") PNone
  end.

Definition deliverAll (j : Job) (es : list ChildEvent) : Job :=
  fold_left (fun j e => (deliver j e).1) es j.

(** Where [writeContents] stands when its body has run: at its call of
    [writeFilePromise], with the flag [shouldKill] it holds and what it
    asked to write, or ended by the error it threw. *)
Inductive BodyEnd :=
| CallsWrite (shouldKill : bool) (filePath data : str)
| Throws (err : str).

(** The task of [writeLoop]: asleep between two checkpoints, waiting for
    the read or for the write of a checkpoint, or ended (by [done] or by a
    rejection). *)
Inductive LoopState :=
| LoopSleeping
| LoopReading
| LoopWriting (shouldKill : bool) (filePath data : str)
| LoopEnded.

(** [runOnFileNameInner] after the fork: waiting for [promise], waiting
    for the read or for the write of the final checkpoint, or settled. *)
Inductive MainState :=
| MainWaiting
| MainReading
| MainWriting (shouldKill : bool) (filePath data : str)
| MainSettled (outcome : Outcome).

(** A run under way: the variables the two tasks share and where each of
    them waits. *)
Record RunState := mkRunState {
  job : Job;
  loop : LoopState;
  main : MainState
}.

(** What wakes one of the tasks: the timer of [writeLoop], a read or a
    write of either task settling ([None] for a read that fails or a write
    that goes through), an event of the child. *)
Inductive RunEvent :=
| Timer
| LoopRead (readResult : option str)
| LoopWritten (writeError : option str)
| Child (e : ChildEvent)
| MainRead (readResult : option str)
| MainWritten (writeError : option str).

Section Run.

Variable digest : str -> str.
(** [process.argv[2]] *)
Variable scriptFolder : str.

Definition filePathOf (fileName : str) : str :=
  scriptFolder ++ lit "/" ++ fileName.

Definition hashChangeError : str :=
  lit "Error: Our file change will trigger a hash change, so our change is invalid.".

(** The part of [runOnFileNameInner] up to the fork.  [readResult] is what
    [readFilePromise] resolves to ([None] when it rejects), [statOk]
    whether [statFilePromise] resolves. *)
Definition startRun (fileName : str) (readResult : option str)
    (statOk : bool) : option Job * list Effect :=
  match readResult with
  | None => (None, [])
  | Some contents =>
      if negb statOk then (None, []) else
      let outputValues := getCommentValueLookup contents in
      let hash := getHash digest contents in
      if bool_decide (objGet (values outputValues) (lit "lastRunHash")
                      = Some hash)
      then (None, [])
      else (Some (mkJob fileName contents outputValues hash [newline] false),
            [Log (lit "Rerunning " ++ fileName);
             Fork (filePathOf fileName)])
  end.

(** [writeContents] from its fresh read to its call of
    [writeFilePromise], entered with [done] false.  [readResult] is the
    fresh read of the file ([None] when it fails; [contents], which the
    read would set, is set again from the serializer before anything uses
    it).  [done] is not touched here. *)
Definition writeContentsBody (readResult : option str) (j : Job)
    : Job * list Effect * BodyEnd :=
  let testCurOutputValues := getCommentValueLookup <$> readResult in
  let shouldKill :=
    match testCurOutputValues with
    | Some t => objHas (values t) (lit "stop")
    | None => false
    end in
  let '(outputValues1, effects) :=
    match testCurOutputValues with
    | Some t =>
        if objHas (values t) (lit "stop")
        then (t, [Log (lit "Trying to stop previous run of file "
                         ++ fileName j);
                  Kill (lit "SIGKILL")])
        else (setValue (setValue (outputValues j) (lit "output") (output j))
                (lit "lastRunHash") (hash j), [])
    | None =>
        (setValue (setValue (outputValues j) (lit "output") (output j))
           (lit "lastRunHash") (hash j), [])
    end in
  let outputValues2 := deleteValue outputValues1 (lit "stop") in
  let contents2 := getContentsFromLookup outputValues2 in
  let j2 := mkJob (fileName j) contents2 outputValues2 (hash j) (output j)
              (done j) in
  if negb shouldKill
     && negb (bool_decide (hash j = getHash digest contents2))
  then (j2, effects, Throws hashChangeError)
  else (j2, effects, CallsWrite shouldKill (filePathOf (fileName j)) contents2).

(** [writeContents] once the [writeFilePromise] it awaits has settled, on
    the job as it is by then: [writeError] is the rejection, if any.  Only
    here, after the wait, does a cancelling checkpoint set [done]. *)
Definition writeContentsSettle (shouldKill : bool) (filePath data : str)
    (writeError : option str) (j : Job) : Job * list Effect * Outcome :=
  match writeError with
  | Some err => (j, [], Threw err)
  | None =>
      (mkJob (fileName j) (contents j) (outputValues j) (hash j)
         (output j) (shouldKill || done j),
       [WriteFile filePath data], Returned)
  end.

(** One checkpoint run from its first line to its last with nothing else
    running while it waits for its read or its write.  What happens when
    another task runs during those waits is the matter of [runStep]
    below. *)
Definition writeContents (readResult : option str)
    (writeError : option str) (j : Job) : Job * list Effect * Outcome :=
  if done j then (j, [], Returned) else
  let '(j2, effects, bodyEnd) := writeContentsBody readResult j in
  match bodyEnd with
  | Throws err => (j2, effects, Threw err)
  | CallsWrite shouldKill filePath contents2 =>
      let '(j3, effects3, outcome) :=
        writeContentsSettle shouldKill filePath contents2 writeError j2 in
      (j3, effects ++ effects3, outcome)
  end.

(** A checkpoint made by [writeLoop], with nothing else running during its
    waits.  Nothing awaits that loop's promise and it has no handler: a
    throw inside it is an unhandled rejection.  The boolean tells whether
    the loop goes on. *)
Definition periodicCheckpoint (readResult : option str)
    (writeError : option str) (j : Job) : Job * list Effect * bool :=
  let '(j', effects, outcome) := writeContents readResult writeError j in
  match outcome with
  | Returned => (j', effects, negb (done j'))
  | Threw err => (j', effects ++ [UnhandledRejection err], false)
  end.

(** The end of [runOnFileNameInner], once [promise] has resolved, with no
    checkpoint of [writeLoop] under way. *)
Definition finishRun (readResult : option str) (writeError : option str)
    (j : Job) : Job * list Effect * Outcome :=
  if done j then (j, [], Returned) else
  let '(j', effects, outcome) := writeContents readResult writeError j in
  let effects' := Log (lit "Finished " ++ fileName j) :: effects in
  match outcome with
  | Returned =>
      (mkJob (fileName j') (contents j') (outputValues j') (hash j')
         (output j') true, effects', Returned)
  | Threw err => (j', effects', Threw err)
  end.

(** The state right after the fork: [writeLoop] has entered its first
    checkpoint and waits for its read, [runOnFileNameInner] waits for
    [promise]. *)
Definition forked (j : Job) : RunState := mkRunState j LoopReading MainWaiting.

(** One turn of the event loop for a run.  Each case is the code between
    two waits of one task; an event no task waits for changes nothing.
    The continuation of [await promise] runs as soon as the listener that
    resolved it returns, so it is part of the child event's turn. *)
Definition runStep (s : RunState) (e : RunEvent) : RunState * list Effect :=
  match e with
  | Timer =>
      match loop s with
      | LoopSleeping =>
          if done (job s) then (mkRunState (job s) LoopEnded (main s), [])
          else (mkRunState (job s) LoopReading (main s), [])
      | _ => (s, [])
      end
  | LoopRead readResult =>
      match loop s with
      | LoopReading =>
          let '(j, effects, bodyEnd) := writeContentsBody readResult (job s) in
          match bodyEnd with
          | Throws err =>
              (mkRunState j LoopEnded (main s),
               effects ++ [UnhandledRejection err])
          | CallsWrite shouldKill filePath contents2 =>
              (mkRunState j (LoopWriting shouldKill filePath contents2)
                 (main s), effects)
          end
      | _ => (s, [])
      end
  | LoopWritten writeError =>
      match loop s with
      | LoopWriting shouldKill filePath contents2 =>
          let '(j, effects, outcome) :=
            writeContentsSettle shouldKill filePath contents2 writeError
              (job s) in
          match outcome with
          | Returned => (mkRunState j LoopSleeping (main s), effects)
          | Threw err =>
              (mkRunState j LoopEnded (main s),
               effects ++ [UnhandledRejection err])
          end
      | _ => (s, [])
      end
  | Child ce =>
      let '(j, resolved) := deliver (job s) ce in
      match main s with
      | MainWaiting =>
          if resolved
          then if done j
               then (mkRunState j (loop s) (MainSettled Returned), [])
               else (mkRunState j (loop s) MainReading,
                     [Log (lit "Finished " ++ fileName j)])
          else (mkRunState j (loop s) MainWaiting, [])
      | m => (mkRunState j (loop s) m, [])
      end
  | MainRead readResult =>
      match main s with
      | MainReading =>
          let '(j, effects, bodyEnd) := writeContentsBody readResult (job s) in
          match bodyEnd with
          | Throws err =>
              (mkRunState j (loop s) (MainSettled (Threw err)), effects)
          | CallsWrite shouldKill filePath contents2 =>
              (mkRunState j (loop s)
                 (MainWriting shouldKill filePath contents2), effects)
          end
      | _ => (s, [])
      end
  | MainWritten writeError =>
      match main s with
      | MainWriting shouldKill filePath contents2 =>
          let '(j, effects, outcome) :=
            writeContentsSettle shouldKill filePath contents2 writeError
              (job s) in
          match outcome with
          | Returned =>
              (mkRunState
                 (mkJob (fileName j) (contents j) (outputValues j)
                    (hash j) (output j) true)
                 (loop s) (MainSettled Returned), effects)
          | Threw err =>
              (mkRunState j (loop s) (MainSettled (Threw err)), effects)
          end
      | _ => (s, [])
      end
  end.

(** The turns of a list of events, with the effects in order. *)
Definition runTrace (s : RunState) (es : list RunEvent)
    : RunState * list Effect :=
  fold_left (fun '(s, effects) e =>
               let '(s', effects') := runStep s e in (s', effects ++ effects'))
    es (s, []).

End Run.

(** ** The run coordinator *)

Record Coordinator := mkCoordinator {
  filesPending : gset str;
  filesPendingTrigger : gset str
}.

(** The synchronous head of [runOnFileName]; the boolean tells whether
    [runOnFileNameInner] was called. *)
Definition runOnFileName (fileName : str) (c : Coordinator)
    : Coordinator * bool :=
  if bool_decide (fileName ∈ filesPending c)
  then (mkCoordinator (filesPending c) ({[ fileName ]} ∪ filesPendingTrigger c),
        false)
  else (mkCoordinator ({[ fileName ]} ∪ filesPending c) (filesPendingTrigger c),
        true).

(** The [catch] and [finally] of [runOnFileName], run when the awaited
    [runOnFileNameInner] settles. *)
Definition afterRun (fileName : str) (outcome : Outcome) (c : Coordinator)
    : Coordinator * list Effect * bool :=
  let effects :=
    match outcome with
    | Threw err => [LogError (lit "Error running " ++ fileName) err]
    | Returned => []
    end in
  let c1 := mkCoordinator (filesPending c ∖ {[ fileName ]})
              (filesPendingTrigger c) in
  if bool_decide (fileName ∈ filesPendingTrigger c1)
  then
    let c2 := mkCoordinator (filesPending c1)
                (filesPendingTrigger c1 ∖ {[ fileName ]}) in
    let '(c3, started) := runOnFileName fileName c2 in
    (c3, effects, started)
  else (c1, effects, false).

(** The watcher as a whole: the coordinator, the inner runs that have been
    started and have not settled yet, and the log of every run started. *)
Record System := mkSystem {
  coordinator : Coordinator;
  inFlight : list str;
  started : list str
}.

Inductive CoordEvent :=
| Trigger (fileName : str)
| Settled (fileName : str) (outcome : Outcome).

Fixpoint removeFirst (f : str) (l : list str) : list str :=
  match l with
  | [] => []
  | x :: l' => if bool_decide (x = f) then l' else x :: removeFirst f l'
  end.

Definition launch (f : str) (didStart : bool) (l : list str) : list str :=
  if didStart then l ++ [f] else l.

Definition step (s : System) (e : CoordEvent) : System :=
  match e with
  | Trigger f =>
      let '(c, didStart) := runOnFileName f (coordinator s) in
      mkSystem c (launch f didStart (inFlight s)) (launch f didStart (started s))
  | Settled f outcome =>
      if bool_decide (f ∈ inFlight s) then
        let '(c, _, didStart) := afterRun f outcome (coordinator s) in
        mkSystem c (launch f didStart (removeFirst f (inFlight s)))
          (launch f didStart (started s))
      else s
  end.

Definition initial : System := mkSystem (mkCoordinator ∅ ∅) [] [].

Definition runEvents (s : System) (es : list CoordEvent) : System :=
  fold_left step es s.

Definition inFlightCount (f : str) (s : System) : nat :=
  length (filter (fun x => x = f) (inFlight s)).

Definition count (f : str) (l : list str) : nat :=
  length (filter (fun x => x = f) l).

Definition runsOf (f : str) (s : System) : nat :=
  length (filter (fun x => x = f) (started s)).

(** No event in [es] is the settling of a run of [f] ... *)
Definition quietFor (f : str) (es : list CoordEvent) : bool :=
  forallb (fun e => match e with
                    | Settled g _ => negb (bool_decide (g = f))
                    | Trigger _ => true
                    end) es.

(** ... and some event in [es] is a trigger of [f]. *)
Definition triggers (f : str) (es : list CoordEvent) : bool :=
  existsb (fun e => match e with
                    | Trigger g => bool_decide (g = f)
                    | Settled _ _ => false
                    end) es.

(** The pending marks tell exactly which runs are in flight, and a trigger
    is only ever queued for a pending name. *)
Definition coherent (s : System) : Prop :=
  ∀ f, inFlightCount f s
       = (if decide (f ∈ filesPending (coordinator s)) then 1 else 0)%nat
       ∧ (f ∈ filesPendingTrigger (coordinator s)
          → f ∈ filesPending (coordinator s)).

(** ** Further notions the store's properties are told with *)

(** Ranges that follow one another from [from] to [upto] without overlap,
    each at least as long as the two markers. *)
Fixpoint rangesWithin (from : Z) (rs : list Range) (upto : Z) : Prop :=
  match rs with
  | [] => from <= upto
  | r :: rs' =>
      from <= start r ∧ start r + 18 <= end_ r ∧ rangesWithin (end_ r) rs' upto
  end.

(** What one event of the child adds to [output]. *)
Definition contribution (e : ChildEvent) : str :=
  match e with
  | SpawnError err =>
      [newline] ++ lit "Ending with error " ++ err ++ [newline]
  | Exit code =>
      if bool_decide (code = Some 0%N) then []
      else [newline] ++ lit "Exit code non-0, was " ++ showCode code
             ++ [newline]
  | Chunk ProcStdout data => data
  | Chunk _ _ => []
  | StdoutEnd => []
  end.

(** The file name an event of the coordinator is about. *)
Definition eventFile (e : CoordEvent) : str :=
  match e with
  | Trigger f => f
  | Settled f _ => f
  end.

(** The start of the program: [runOnFileName] for every entry that
    [fs.readdirSync] lists, before any run settles.  The callback given to
    [fs.watch] is a [Trigger] as well. *)
Definition startup (names : list str) : System :=
  runEvents initial (map Trigger names).

(** The end of [runOnFileNameInner] in the second copy of the program held
    in [index.js]: [done] is set before the last [writeContents] is
    called. *)
Definition finishRunLater (digest : str -> str) (scriptFolder : str)
    (readResult : option str) (writeError : option str) (j : Job)
    : Job * list Effect * Outcome :=
  if done j then (j, [], Returned) else
  let j1 := mkJob (fileName j) (contents j) (outputValues j) (hash j)
              (output j) true in
  let '(j', effects, outcome) :=
    writeContents digest scriptFolder readResult writeError j1 in
  (j', Log (lit "Finished " ++ fileName j) :: effects, outcome).


Ltac split_decide :=
  repeat (case_bool_decide || case_decide); simplify_eq/=; try done.

(** * Searching *)

Section Search.
Local Open Scope nat_scope.
Local Arguments N.eqb : simpl never.
Implicit Types pat s u x g : str.

Lemma startsWith_app pat s : startsWith pat (pat ++ s) = true.
Proof.
  induction pat as [|p pat IH]; simpl; [done|].
  by rewrite N.eqb_refl.
Qed.

Lemma startsWith_inv pat s :
  startsWith pat s = true → s = pat ++ drop (length pat) s.
Proof.
  revert s; induction pat as [|p pat IH]; intros [|c s] H; simpl in *;
    try done.
  apply andb_true_iff in H as [H1 H2].
  apply N.eqb_eq in H1 as ->. f_equal. by apply IH.
Qed.

Lemma startsWith_length pat s :
  startsWith pat s = true → length pat ≤ length s.
Proof.
  intros H. rewrite (startsWith_inv _ _ H), length_app. lia.
Qed.

Lemma startsWith_app_long pat u x :
  length pat ≤ length u → startsWith pat (u ++ x) = startsWith pat u.
Proof.
  revert u; induction pat as [|p pat IH]; intros [|c u] H; simpl in *;
    try done; try lia.
  rewrite IH; [done|lia].
Qed.

Lemma startsWith_app_mono pat u x :
  startsWith pat u = true → startsWith pat (u ++ x) = true.
Proof.
  intros H. rewrite startsWith_app_long; [done|].
  by apply startsWith_length.
Qed.

Lemma find_Some_startsWith pat s n :
  find pat s = Some n → startsWith pat (drop n s) = true.
Proof.
  revert n; induction s as [|c s IH]; intros n; simpl.
  - destruct (startsWith pat []) eqn:E; [|done]. by intros [= <-].
  - destruct (startsWith pat (c :: s)) eqn:E; [by intros [= <-]|].
    destruct (find pat s) as [m|]; simpl; [|done].
    intros [= <-]. simpl. by apply IH.
Qed.

Lemma find_here pat s : startsWith pat s = true → find pat s = Some 0.
Proof. intros H. destruct s; cbn [find]; by rewrite H. Qed.

Lemma find_cons_miss pat c s :
  startsWith pat (c :: s) = false → find pat (c :: s) = S <$> find pat s.
Proof. intros H. cbn [find]. by rewrite H. Qed.

Lemma find_Some_le pat s n : find pat s = Some n → n ≤ length s.
Proof.
  revert n; induction s as [|c s IH]; intros n; simpl.
  - destruct (startsWith pat []); [|done]. intros [= <-]. lia.
  - destruct (startsWith pat (c :: s)); [intros [= <-]; lia|].
    destruct (find pat s) as [m|]; simpl; [|done].
    intros [= <-]. specialize (IH m eq_refl). lia.
Qed.

Lemma find_Some_length pat s n :
  find pat s = Some n → n + length pat ≤ length s.
Proof.
  intros H. pose proof (find_Some_le _ _ _ H) as Hle.
  apply find_Some_startsWith, startsWith_length in H.
  rewrite length_drop in H. lia.
Qed.

Lemma find_Some_first pat s n m :
  find pat s = Some n → m < n → startsWith pat (drop m s) = false.
Proof.
  revert n m; induction s as [|c s IH]; intros n m; simpl.
  - destruct (startsWith pat []); [|done]. intros [= <-]. lia.
  - destruct (startsWith pat (c :: s)) eqn:E; [intros [= <-]; lia|].
    destruct (find pat s) as [k|]; simpl; [|done].
    intros [= <-] Hm. destruct m as [|m]; simpl; [done|].
    apply (IH k); [done|lia].
Qed.

Lemma find_None_startsWith pat s m :
  find pat s = None → startsWith pat (drop m s) = false.
Proof.
  revert m; induction s as [|c s IH]; intros m; simpl.
  - destruct (startsWith pat []) eqn:E; [done|]. intros _. by destruct m.
  - destruct (startsWith pat (c :: s)) eqn:E; [done|].
    destruct (find pat s) as [k|]; simpl; [done|].
    intros _. destruct m as [|m]; simpl; [done|]. by apply IH.
Qed.

Lemma find_intro pat s n :
  n ≤ length s →
  startsWith pat (drop n s) = true →
  (∀ m, m < n → startsWith pat (drop m s) = false) →
  find pat s = Some n.
Proof.
  revert n; induction s as [|c s IH]; intros n Hn H1 H2.
  - assert (n = 0) as -> by (simpl in Hn; lia). simpl in *. by rewrite H1.
  - simpl. destruct n as [|n].
    + simpl in H1. by rewrite H1.
    + pose proof (H2 0 ltac:(lia)) as H0. simpl in H0. rewrite H0.
      rewrite (IH n); [done|simpl in Hn; lia|done|].
      intros m Hm. apply (H2 (S m)). lia.
Qed.

Lemma find_None_intro pat s :
  (∀ m, startsWith pat (drop m s) = false) → find pat s = None.
Proof.
  induction s as [|c s IH]; intros H.
  - pose proof (H 0) as H0. simpl in *. by rewrite H0.
  - simpl. pose proof (H 0) as H0. simpl in H0. rewrite H0.
    rewrite IH; [done|]. intros m. apply (H (S m)).
Qed.

Lemma find_app_Some pat s x n :
  find pat s = Some n → find pat (s ++ x) = Some n.
Proof.
  intros H. pose proof (find_Some_length _ _ _ H) as Hlen.
  apply find_intro.
  - rewrite length_app. lia.
  - rewrite drop_app_le by lia. apply startsWith_app_mono.
    by apply find_Some_startsWith.
  - intros m Hm. rewrite drop_app_le by lia.
    rewrite startsWith_app_long by (rewrite length_drop; lia).
    by apply (find_Some_first _ _ n).
Qed.

(** No match starts inside [g]: the search goes on after it. *)
Lemma find_skip pat g x :
  (∀ m, m < length g → startsWith pat (drop m (g ++ x)) = false) →
  find pat (g ++ x) = (fun i => length g + i) <$> find pat x.
Proof.
  induction g as [|c g IH]; intros H; simpl.
  - by destruct (find pat x).
  - pose proof (H 0 ltac:(simpl; lia)) as H0. simpl in H0. rewrite H0.
    rewrite IH.
    + by destruct (find pat x).
    + intros m Hm. apply (H (S m)). simpl. lia.
Qed.

Lemma find_take pat s n m :
  find pat s = Some n → n + length pat ≤ m → find pat (take m s) = Some n.
Proof.
  intros H Hm. pose proof (find_Some_length _ _ _ H) as Hlen.
  rewrite <- (take_drop m s) in H.
  apply find_intro.
  - rewrite length_take. lia.
  - pose proof (find_Some_startsWith _ _ _ H) as H1.
    rewrite drop_app_le in H1 by (rewrite length_take; lia).
    rewrite startsWith_app_long in H1; [done|].
    rewrite length_drop, length_take. lia.
  - intros k Hk. pose proof (find_Some_first _ _ _ k H Hk) as H1.
    rewrite drop_app_le in H1 by (rewrite length_take; lia).
    rewrite startsWith_app_long in H1; [done|].
    rewrite length_drop, length_take. lia.
Qed.

(** *** The markers *)

Lemma prefix_eq :
  prefix = [10; 47; 42; 42; 32; 64; 97; 117; 116; 111; 114; 117; 110; 45]%N.
Proof. reflexivity. Qed.

Lemma suffix_eq : suffix = [32; 42; 47; 10]%N.
Proof. reflexivity. Qed.

Lemma startsWith_before_newline pat u x :
  newline ∉ pat → startsWith pat (u ++ newline :: x) = startsWith pat u.
Proof.
  revert u; induction pat as [|p pat IH]; intros u Hp; [done|].
  apply not_elem_of_cons in Hp as [Hp1 Hp2].
  destruct u as [|c u]; simpl.
  - apply andb_false_intro1, N.eqb_neq. congruence.
  - by rewrite IH.
Qed.

Lemma prefix_no_inner_newline : newline ∉ lit "/** @autorun-".
Proof. apply (bool_decide_unpack _). by vm_compute. Qed.

(** A match of the opening marker cannot run over into a line break: the
    marker's only line break is its first character. *)
Lemma startsWith_prefix_straddle u x :
  u ≠ [] → startsWith prefix (u ++ newline :: x) = startsWith prefix u.
Proof.
  destruct u as [|c u]; [done|]. intros _.
  change prefix with (newline :: lit "/** @autorun-").
  cbn [startsWith app]. f_equal.
  apply startsWith_before_newline, prefix_no_inner_newline.
Qed.

Lemma find_prefix_gap g x :
  gapFree g →
  find prefix (g ++ newline :: x)
  = (fun i => length g + i) <$> find prefix (newline :: x).
Proof.
  intros Hg. apply find_skip. intros m Hm.
  rewrite drop_app_le by lia.
  rewrite startsWith_prefix_straddle.
  - by apply find_None_startsWith.
  - intros E. apply (f_equal length) in E.
    rewrite length_drop in E. simpl in E. lia.
Qed.

Lemma prefix_head x : startsWith prefix x = true → ∃ y, x = newline :: y.
Proof.
  intros H. apply startsWith_inv in H. rewrite H. by eexists.
Qed.

Lemma find_prefix_gap_block g x :
  gapFree g → startsWith prefix x = true →
  find prefix (g ++ x) = Some (length g).
Proof.
  intros Hg Hx. destruct (prefix_head _ Hx) as [y ->].
  rewrite find_prefix_gap by done.
  rewrite (find_here _ _ Hx). simpl. f_equal. lia.
Qed.

Lemma find_suffix_prefix x :
  find suffix (prefix ++ x) = (fun n => 14 + n) <$> find suffix x.
Proof.
  rewrite prefix_eq. cbn [app].
  do 14 (rewrite find_cons_miss by reflexivity).
  by destruct (find suffix x).
Qed.

Lemma suffix_after_prefix s e :
  startsWith prefix s = true → find suffix s = Some e → 14 ≤ e.
Proof.
  intros H1 H2. rewrite (startsWith_inv _ _ H1), find_suffix_prefix in H2.
  destruct (find suffix _); simplify_eq/=. lia.
Qed.

Lemma find_space_free pat k x c :
  c ∉ k → find (c :: pat) (k ++ x)
          = (fun n => length k + n) <$> find (c :: pat) x.
Proof.
  intros Hk. apply find_skip. intros m Hm.
  rewrite drop_app_le by lia.
  destruct (drop m k) as [|d r] eqn:E.
  - apply (f_equal length) in E. rewrite length_drop in E. simpl in E. lia.
  - simpl. apply andb_false_intro1, N.eqb_neq. intros ->.
    apply Hk, (subseteq_drop m k). rewrite E. left.
Qed.

Lemma suffix_not_after w c :
  find starSlash w = None → startsWith suffix (c :: w ++ suffix) = false.
Proof.
  intros H. pose proof (find_None_startsWith _ _ 0 H) as H0.
  rewrite suffix_eq. unfold starSlash in H0.
  destruct w as [|d [|e w]]; simpl in H0 |- *.
  - by rewrite andb_false_r.
  - by rewrite !andb_false_r.
  - destruct (32 =? c)%N; [|done].
    destruct (42 =? d)%N; [|done]. by destruct (47 =? e)%N.
Qed.

Lemma find_starSlash_tail c w :
  find starSlash (c :: w) = None → find starSlash w = None.
Proof.
  cbn [find]. destruct (startsWith starSlash (c :: w)); [done|].
  by destruct (find starSlash w).
Qed.

Lemma find_suffix_value w :
  find starSlash w = None → find suffix (w ++ suffix) = Some (length w).
Proof.
  induction w as [|c w IH]; intros H; [done|].
  cbn [app find]. rewrite suffix_not_after, IH; eauto using find_starSlash_tail.
Qed.

Lemma escapeClose_head d r : ∃ w, escapeClose (d :: r) = d :: w.
Proof.
  destruct r as [|e r]; simpl; [by eexists|].
  destruct (d =? 42)%N eqn:E1; simpl; [|by eexists].
  destruct (e =? 47)%N; [|by eexists].
  apply N.eqb_eq in E1 as ->. by eexists.
Qed.

Lemma escapeClose_cons2 c d r :
  escapeClose (c :: d :: r)
  = if ((c =? 42) && (d =? 47))%N
    then 42%N :: 92%N :: 47%N :: escapeClose r
    else c :: escapeClose (d :: r).
Proof. reflexivity. Qed.

Lemma escapeClose_closed_aux v :
  find starSlash (escapeClose v) = None
  ∧ ∀ c, find starSlash (escapeClose (c :: v)) = None.
Proof.
  induction v as [|d r [IH1 IH2]].
  - split; [done|]. intros c. cbn. by rewrite andb_false_r.
  - split; [apply IH2|]. intros c.
    rewrite escapeClose_cons2.
    destruct ((c =? 42)%N && (d =? 47)%N) eqn:E.
    + do 3 (rewrite find_cons_miss by reflexivity). by rewrite IH1.
    + destruct (escapeClose_head d r) as [w Hw].
      specialize (IH2 d). rewrite Hw in IH2 |- *.
      rewrite find_cons_miss, IH2; [done|].
      cbn. by rewrite andb_true_r, (N.eqb_sym 42 c), (N.eqb_sym 47 d).
Qed.

(** The escaped value holds no closing sequence. *)
Lemma escapeClose_closed v : find starSlash (escapeClose v) = None.
Proof. apply escapeClose_closed_aux. Qed.

Lemma escapeClose_id v : find starSlash v = None → escapeClose v = v.
Proof.
  assert (∀ v, (find starSlash v = None → escapeClose v = v)
            ∧ ∀ c, find starSlash (c :: v) = None → escapeClose (c :: v) = c :: v)
    as Haux; [|apply Haux].
  clear v. induction v as [|d r [IH1 IH2]]; (split; [done || apply IH2|]).
  - done.
  - intros c H. pose proof (find_None_startsWith _ _ 0 H) as H0.
    cbn in H0. rewrite andb_true_r in H0.
    rewrite escapeClose_cons2, (N.eqb_sym c), (N.eqb_sym d), H0.
    f_equal. apply IH2. eauto using find_starSlash_tail.
Qed.

Lemma escapeClose_fixed v : escapeClose v = v ↔ find starSlash v = None.
Proof.
  split; [|apply escapeClose_id].
  intros <-. apply escapeClose_closed.
Qed.

End Search.

(** * Indices and slices on natural numbers *)

Section Indices.
Local Open Scope nat_scope.
Local Arguments N.eqb : simpl never.
Implicit Types pat s c : str.

Lemma len_prefix : len prefix = 14%Z.
Proof. reflexivity. Qed.

Lemma len_suffix : len suffix = 4%Z.
Proof. reflexivity. Qed.

Lemma length_prefix : length prefix = 14.
Proof. reflexivity. Qed.

Lemma length_suffix : length suffix = 4.
Proof. reflexivity. Qed.

Lemma indexOf_nat s pat (i : nat) :
  i ≤ length s →
  indexOf s pat (Z.of_nat i)
  = match find pat (drop i s) with
    | Some j => Z.of_nat (i + j)
    | None => (-1)%Z
    end.
Proof.
  intros Hi. unfold indexOf, len.
  replace (Z.to_nat _) with i by lia. done.
Qed.

Lemma slice_nat s (a b : nat) :
  a ≤ length s → b ≤ length s →
  slice s (Z.of_nat a) (Z.of_nat b) = take (b - a) (drop a s).
Proof.
  intros Ha Hb. unfold slice, sliceBound, len.
  destruct (Z.ltb_spec (Z.of_nat a) 0); [lia|].
  destruct (Z.ltb_spec (Z.of_nat b) 0); [lia|].
  f_equal; [|f_equal]; lia.
Qed.

Lemma sliceFrom_nat s (a : nat) :
  a ≤ length s → sliceFrom s (Z.of_nat a) = drop a s.
Proof.
  intros Ha. unfold sliceFrom, len. rewrite slice_nat by lia.
  apply take_ge. rewrite length_drop. lia.
Qed.

Lemma slice_app_l (u v : str) : slice (u ++ v) 0 (len u) = u.
Proof.
  unfold len. rewrite (slice_nat _ 0) by (rewrite length_app; lia).
  simpl. rewrite Nat.sub_0_r. apply take_app_length.
Qed.

Lemma sliceFrom_app_r (u v : str) : sliceFrom (u ++ v) (len u) = v.
Proof.
  unfold len. rewrite sliceFrom_nat by (rewrite length_app; lia).
  apply drop_app_length.
Qed.

Lemma slice_app_mid (u v w : str) :
  slice (u ++ v ++ w) (len u) (len u + len v) = v.
Proof.
  unfold len. rewrite <- Nat2Z.inj_add.
  rewrite slice_nat by (rewrite ?length_app; lia).
  rewrite drop_app_length.
  replace (length u + length v - length u) with (length v) by lia.
  apply take_app_length.
Qed.

Lemma find_exists pat s n :
  n ≤ length s → startsWith pat (drop n s) = true →
  ∃ k, find pat s = Some k ∧ k ≤ n.
Proof.
  revert s; induction n as [|n IH]; intros s Hn H.
  - exists 0. split; [by apply find_here|done].
  - destruct s as [|c s]; [simpl in Hn; lia|].
    destruct (startsWith pat (c :: s)) eqn:E.
    + exists 0. split; [by apply find_here|lia].
    + destruct (IH s) as (k & Hk & Hle); [simpl in Hn; lia|done|].
      exists (S k). rewrite find_cons_miss, Hk by done. split; [done|lia].
Qed.

Lemma suffix_space y : startsWith suffix y = true → startsWith [space] y = true.
Proof.
  intros H. rewrite (startsWith_inv _ _ H). by rewrite suffix_eq.
Qed.

(** Key and value of the block that opens [s], as slices of [s]. *)
Lemma block_key_value s e :
  startsWith prefix s = true → find suffix s = Some e →
  ∃ k, find [space] (drop 14 s) = Some k ∧ 14 + k ≤ e
       ∧ blockKey (take (e + 4) s) = take k (drop 14 s)
       ∧ blockValue (take (e + 4) s)
         = take (e - (14 + k + 1)) (drop (14 + k + 1) s).
Proof.
  intros Hp Hs.
  pose proof (suffix_after_prefix _ _ Hp Hs) as He.
  pose proof (find_Some_length _ _ _ Hs) as Hlen. rewrite length_suffix in Hlen.
  destruct (find_exists [space] (drop 14 s) (e - 14)) as (k & Hk & Hle).
  { rewrite length_drop. lia. }
  { rewrite drop_drop. replace (14 + (e - 14)) with e by lia.
    by apply suffix_space, find_Some_startsWith. }
  exists k. split; [done|]. split; [lia|].
  assert (blockKeyEnd (take (e + 4) s) = 14 + k) as HkE.
  { unfold blockKeyEnd. f_equal.
    rewrite skipn_firstn_comm.
    erewrite find_take; [done|done|simpl; lia]. }
  unfold blockKey, blockValue. rewrite HkE, !skipn_firstn_comm, !take_take.
  rewrite length_take.
  split; f_equal; lia.
Qed.

End Indices.

(** * The scan, read on the text *)

Section Scan.
Local Open Scope nat_scope.
Local Arguments N.eqb : simpl never.
Implicit Types c s t g B : str.

(** The index-based loop finds exactly the blocks of [layoutOf]. *)
Lemma scanLoop_layout fuel c (i : nat) vs rs :
  i ≤ length c →
  scanLoop fuel c (Z.of_nat i) vs rs
  = (fold_left setRange (rangesOf i (layoutOf fuel (drop i c)).1) vs,
     rs ++ rangesOf i (layoutOf fuel (drop i c)).1).
Proof.
  revert i vs rs; induction fuel as [|fuel IH]; intros i vs rs Hi.
  { simpl. by rewrite app_nil_r. }
  cbn [scanLoop layoutOf]. rewrite indexOf_nat by done.
  destruct (find prefix (drop i c)) as [j|] eqn:Fp;
    [|simpl; by rewrite app_nil_r].
  pose proof (find_Some_le _ _ _ Fp) as Hj. rewrite length_drop in Hj.
  pose proof (find_Some_startsWith _ _ _ Fp) as Hp.
  destruct (Z.ltb_spec (Z.of_nat (i + j)) 0) as [?|_]; [lia|].
  rewrite indexOf_nat by lia. rewrite <- drop_drop.
  destruct (find suffix (drop j (drop i c))) as [e|] eqn:Fs;
    [|simpl; by rewrite app_nil_r].
  pose proof (find_Some_length _ _ _ Fs) as He.
  rewrite length_suffix, !length_drop in He.
  destruct (Z.ltb_spec (Z.of_nat (i + j + e)) 0) as [?|_]; [lia|].
  destruct (block_key_value _ _ Hp Fs) as (k & Hk & Hke & HK & HV).
  rewrite len_prefix, len_suffix.
  replace (Z.of_nat (i + j) + 14)%Z with (Z.of_nat (i + j + 14)) by lia.
  replace (Z.of_nat (i + j + e) + 4)%Z with (Z.of_nat (i + j + e + 4)) by lia.
  rewrite indexOf_nat by lia.
  rewrite !drop_drop in Hk, HK, HV.
  replace (i + j + 14) with (i + (j + 14)) by lia. rewrite Hk.
  replace (Z.of_nat (i + (j + 14) + k) + 1)%Z
    with (Z.of_nat (i + (j + 14) + k + 1)) by lia.
  rewrite !slice_nat by lia.
  rewrite IH by lia.
  rewrite drop_drop.
  replace (i + j + e + 4) with (i + (j + e + 4)) by lia.
  destruct (layoutOf fuel (drop (i + (j + e + 4)) c)) as [items t].
  cbn [fst rangesOf fold_left].
  rewrite length_take, length_take, !length_drop.
  replace (i + j `min` (length c - i)) with (i + j) by lia.
  replace (i + j + (e + 4) `min` (length c - i - j))
    with (i + (j + e + 4)) by lia.
  replace (i + (j + 14) + k - (i + (j + 14))) with k by lia.
  replace (i + j + e - (i + (j + 14) + k + 1)) with (e - (14 + k + 1)) by lia.
  replace (i + (j + 14) + k + 1) with (i + j + (14 + k + 1)) by lia.
  replace (i + (j + 14)) with (i + j + 14) by lia.
  rewrite !drop_drop, HK, HV.
  unfold setRange at 2. cbn [key value].
  by rewrite <- app_assoc.
Qed.

Lemma getCommentValueLookup_layout c :
  getCommentValueLookup c
  = let rs := rangesOf 0 (layoutOf (S (length c)) c).1 in
    mkLookup (fold_left setRange rs []) rs c.
Proof.
  unfold getCommentValueLookup.
  rewrite (scanLoop_layout _ _ 0) by lia. done.
Qed.

(** *** What the layout of a string looks like *)

Lemma layoutOf_flatten fuel s :
  flatten (layoutOf fuel s).1 (layoutOf fuel s).2 = s.
Proof.
  revert s; induction fuel as [|fuel IH]; intros s; [done|].
  cbn [layoutOf].
  destruct (find prefix s) as [i|] eqn:Fp; [|done].
  destruct (find suffix (drop i s)) as [e|] eqn:Fs; [|done].
  specialize (IH (drop (i + e + 4) s)).
  destruct (layoutOf fuel (drop (i + e + 4) s)) as [items t].
  cbn [fst snd flatten] in *. rewrite IH.
  replace (i + e + 4) with (i + (e + 4)) by lia.
  rewrite <- (drop_drop s (e + 4) i).
  by rewrite !take_drop.
Qed.

Lemma find_None_take pat s n : find pat s = None → find pat (take n s) = None.
Proof.
  intros H. destruct (find pat (take n s)) as [k|] eqn:E; [|done].
  rewrite <- (take_drop n s), (find_app_Some _ _ _ _ E) in H. done.
Qed.

Lemma find_first_take pat s n : find pat s = Some n → pat ≠ [] → find pat (take n s) = None.
Proof.
  intros H Hpat. destruct (find pat (take n s)) as [k|] eqn:E; [|done].
  pose proof (find_Some_length _ _ _ E) as Hk.
  rewrite length_take in Hk.
  rewrite <- (take_drop n s), (find_app_Some _ _ _ _ E) in H.
  destruct pat; [done|]. simplify_eq/=. lia.
Qed.

Lemma layoutOf_wf fuel s : Forall wfItem (layoutOf fuel s).1.
Proof.
  revert s; induction fuel as [|fuel IH]; intros s; [by constructor|].
  cbn [layoutOf].
  destruct (find prefix s) as [i|] eqn:Fp; [|by constructor].
  destruct (find suffix (drop i s)) as [e|] eqn:Fs; [|by constructor].
  specialize (IH (drop (i + e + 4) s)).
  destruct (layoutOf fuel (drop (i + e + 4) s)) as [items t].
  cbn [fst] in *. constructor; [|done].
  pose proof (find_Some_startsWith _ _ _ Fp) as Hp.
  pose proof (find_Some_length _ _ _ Fs) as He. rewrite length_suffix in He.
  pose proof (suffix_after_prefix _ _ Hp Fs) as H14.
  split; cbn [fst snd].
  - by apply find_first_take.
  - split.
    + rewrite <- (take_drop (e + 4) (drop i s)) in Hp.
      rewrite startsWith_app_long in Hp; [done|].
      rewrite length_take, length_prefix. lia.
    + rewrite length_take.
      replace ((e + 4) `min` length (drop i s) - 4) with e by lia.
      apply find_take; [done|]. rewrite length_suffix. lia.
Qed.

Lemma tight_length B : tight B → 18 ≤ length B.
Proof.
  intros [Hp Hs].
  pose proof (suffix_after_prefix _ _ Hp Hs).
  pose proof (find_Some_length _ _ _ Hs) as H4. rewrite length_suffix in H4.
  lia.
Qed.

(** Conversely, a string put together from gaps without opening marker
    and blocks closed at their first closing marker is cut back into
    those. *)
Lemma layoutOf_item fuel g B s :
  gapFree g → tight B →
  layoutOf (S fuel) (g ++ B ++ s)
  = ((g, B) :: (layoutOf fuel s).1, (layoutOf fuel s).2).
Proof.
  intros Hg [Hp Hs]. pose proof (tight_length B (conj Hp Hs)) as HB.
  cbn [layoutOf].
  rewrite find_prefix_gap_block by (done || by apply startsWith_app_mono).
  rewrite drop_app_length, (find_app_Some _ _ _ _ Hs).
  replace (length g + (length B - 4) + 4) with (length g + length B) by lia.
  replace (length B - 4 + 4) with (length B) by lia.
  rewrite take_app_length, take_app_length.
  rewrite <- drop_drop, !drop_app_length.
  by destruct (layoutOf fuel s).
Qed.

Lemma layoutOf_tail fuel t :
  gapFree t ∨ danglingTail t → layoutOf fuel t = ([], t).
Proof.
  intros H. destruct fuel as [|fuel]; [done|]. cbn [layoutOf].
  destruct H as [->|(i & -> & ->)]; done.
Qed.

Lemma layoutOf_complete fuel items t :
  Forall wfItem items → gapFree t ∨ danglingTail t →
  length items ≤ fuel →
  layoutOf fuel (flatten items t) = (items, t).
Proof.
  intros Hwf Ht. revert fuel.
  induction Hwf as [|[g B] items [Hg HB] _ IH]; intros fuel Hf.
  - by apply layoutOf_tail.
  - destruct fuel as [|fuel]; [simpl in Hf; lia|].
    cbn [flatten]. rewrite layoutOf_item by done.
    rewrite IH by (simpl in Hf; lia). done.
Qed.

Lemma flatten_length items t :
  Forall wfItem items → length items ≤ length (flatten items t).
Proof.
  induction 1 as [|[g B] items [Hg HB] _ IH]; cbn [flatten length]; [lia|].
  apply tight_length in HB. rewrite !length_app. cbn [snd] in HB. lia.
Qed.

(** The tail of a layout computed with enough fuel. *)
Lemma layoutOf_tail_end fuel s :
  length s < fuel →
  gapFree (layoutOf fuel s).2 ∨ danglingTail (layoutOf fuel s).2.
Proof.
  revert s; induction fuel as [|fuel IH]; intros s Hf; [lia|].
  cbn [layoutOf].
  destruct (find prefix s) as [i|] eqn:Fp; [|by left].
  destruct (find suffix (drop i s)) as [e|] eqn:Fs;
    [|right; by exists i].
  pose proof (find_Some_length _ _ _ Fs) as He.
  rewrite length_suffix, length_drop in He.
  specialize (IH (drop (i + e + 4) s)).
  destruct (layoutOf fuel (drop (i + e + 4) s)) as [items t].
  apply IH. rewrite length_drop. lia.
Qed.

(** More rounds than [S (length s)] change nothing: the scan has always
    stopped by then. *)
Lemma layoutOf_fuel fuel s :
  length s < fuel → layoutOf fuel s = layoutOf (S (length s)) s.
Proof.
  intros Hf.
  pose proof (layoutOf_flatten (S (length s)) s) as Hs.
  pose proof (layoutOf_wf (S (length s)) s) as Hwf.
  pose proof (layoutOf_tail_end (S (length s)) s ltac:(lia)) as Ht.
  destruct (layoutOf (S (length s)) s) as [items t]. cbn [fst snd] in *.
  rewrite <- Hs at 1. apply layoutOf_complete; [done..|].
  pose proof (flatten_length items t Hwf) as Hlen. rewrite Hs in Hlen. lia.
Qed.

Lemma scanLoop_fuel fuel c :
  length c < fuel →
  scanLoop fuel c 0 [] [] = scanLoop (S (length c)) c 0 [] [].
Proof.
  intros Hf. rewrite !(scanLoop_layout _ c 0) by lia.
  cbn [drop]. by rewrite layoutOf_fuel.
Qed.

End Scan.

(** * Objects *)

Section Objects.
Implicit Types o : Obj.
Implicit Types k v : str.

Lemma objGet_objSet o k v k' :
  objGet (objSet o k v) k' = if decide (k = k') then Some v else objGet o k'.
Proof.
  induction o as [|[k0 v0] o IH]; simpl.
  - by split_decide.
  - case_bool_decide; simpl; rewrite ?IH; by split_decide.
Qed.

Lemma objGet_elem o k : is_Some (objGet o k) ↔ k ∈ o.*1.
Proof.
  induction o as [|[k0 v0] o IH]; simpl.
  - split; [by intros [? ?]|by intros ?%elem_of_nil].
  - rewrite elem_of_cons, <- IH. case_bool_decide; subst.
    + split; [by left|by eexists].
    + split; [by right|]. intros [?|?]; [congruence|done].
Qed.

Lemma objSet_keys o k v x : x ∈ (objSet o k v).*1 ↔ x = k ∨ x ∈ o.*1.
Proof.
  rewrite <- !objGet_elem, objGet_objSet.
  case_decide; subst; split; eauto.
  intros [?|?]; [congruence|done].
Qed.

Lemma objSet_NoDup o k v : NoDup o.*1 → NoDup (objSet o k v).*1.
Proof.
  induction o as [|[k0 v0] o IH]; simpl; intros H.
  - repeat constructor. by intros ?%elem_of_nil.
  - apply NoDup_cons in H as [H1 H2]. case_bool_decide; simpl.
    + by apply NoDup_cons.
    + apply NoDup_cons. split; [|by apply IH].
      rewrite objSet_keys. intros [?|?]; [congruence|done].
Qed.

Lemma objGet_objDelete o k k' :
  NoDup o.*1 →
  objGet (objDelete o k) k' = if decide (k = k') then None else objGet o k'.
Proof.
  induction o as [|[k0 v0] o IH]; simpl; intros H.
  - by case_decide.
  - apply NoDup_cons in H as [H1 H2]. specialize (IH H2).
    case_bool_decide; subst; simpl.
    + case_decide; subst.
      * destruct (objGet o k') eqn:E; [|done].
        exfalso. apply H1, objGet_elem. by eexists.
      * by rewrite bool_decide_false.
    + rewrite IH. repeat case_decide; case_bool_decide; congruence.
Qed.

Lemma objDelete_NoDup o k : NoDup o.*1 → NoDup (objDelete o k).*1.
Proof.
  induction o as [|[k0 v0] o IH]; simpl; intros H; [done|].
  apply NoDup_cons in H as [H1 H2]. case_bool_decide; simpl; [done|].
  apply NoDup_cons. split; [|by apply IH].
  rewrite <- objGet_elem, objGet_objDelete by done.
  case_decide; [by intros [? ?]|]. by rewrite objGet_elem.
Qed.

Lemma insertIndexKey_elem n k (l : list (N * str)) x :
  x ∈ (insertIndexKey n k l).*2 ↔ x = k ∨ x ∈ l.*2.
Proof.
  induction l as [|[m k'] l IH]; simpl.
  - rewrite list_elem_of_singleton, elem_of_nil. tauto.
  - destruct (n <? m)%N; simpl; rewrite !elem_of_cons; [done|].
    rewrite IH. tauto.
Qed.

Lemma objKeys_elem o x : x ∈ objKeys o ↔ x ∈ o.*1.
Proof.
  unfold objKeys. rewrite elem_of_app.
  induction o as [|[k v] o IH]; simpl.
  - rewrite elem_of_nil. tauto.
  - rewrite elem_of_cons.
    destruct (arrayIndex k); simpl;
      rewrite ?insertIndexKey_elem, ?elem_of_cons; tauto.
Qed.

Lemma objKeys_nil : objKeys [] = [].
Proof. done. Qed.

(** The value map built by the scan: the last block of a key wins. *)
Lemma objGet_fold_setRange (rs : list Range) o k :
  objGet (fold_left setRange rs o) k
  = match last (filter (fun r => key r = k) rs) with
    | Some r => Some (value r)
    | None => objGet o k
    end.
Proof.
  induction rs as [|r rs IH] using rev_ind; [done|].
  rewrite fold_left_app, filter_app. simpl.
  unfold setRange at 1. rewrite objGet_objSet.
  rewrite filter_cons, filter_nil. case_decide.
  - by rewrite last_snoc.
  - by rewrite app_nil_r.
Qed.

Lemma fold_setRange_keys (rs : list Range) o x :
  x ∈ (fold_left setRange rs o).*1 ↔ x ∈ map key rs ∨ x ∈ o.*1.
Proof.
  revert o; induction rs as [|r rs IH]; intros o; simpl.
  - rewrite elem_of_nil. tauto.
  - rewrite IH. unfold setRange. rewrite objSet_keys, elem_of_cons. tauto.
Qed.

Lemma fold_setRange_NoDup (rs : list Range) o :
  NoDup o.*1 → NoDup (fold_left setRange rs o).*1.
Proof.
  revert o; induction rs as [|r rs IH]; intros o H; simpl; [done|].
  by apply IH, objSet_NoDup.
Qed.

End Objects.

(** * The serializer *)

Section Serializer.
Local Open Scope nat_scope.
Implicit Types c s t g B pre : str.
Implicit Types V : Obj.
Implicit Types items : list (str * str).

Lemma slice_app_l' (X u v : str) (a : Z) :
  X = u ++ v → a = len u → slice X 0 a = u.
Proof. intros -> ->. apply slice_app_l. Qed.

Lemma sliceFrom_app_r' (X u v : str) (a : Z) :
  X = u ++ v → a = len u → sliceFrom X a = v.
Proof. intros -> ->. apply sliceFrom_app_r. Qed.

Lemma slice_app_mid' (X u v w : str) (a b : Z) :
  X = u ++ v ++ w → a = len u → b = (len u + len v)%Z → slice X a b = v.
Proof. intros -> -> ->. apply slice_app_mid. Qed.

(** The keys the first loop marks as found. *)
Lemma rangeStep_found V (rs : list Range) c (F : gset str) k :
  k ∈ (fold_left (rangeStep V) rs (c, F)).2
  ↔ k ∈ F ∨ (k ∈ map key rs ∧ is_Some (objGet V k)).
Proof.
  revert c F; induction rs as [|r rs IH]; intros c F; simpl.
  - rewrite elem_of_nil. tauto.
  - destruct (objGet V (key r)) as [v|] eqn:E; rewrite IH, elem_of_cons.
    + rewrite elem_of_union, elem_of_singleton.
      assert (is_Some (objGet V (key r))) by (by eexists). split.
      * intros [[->|?]|[? ?]];
          [right; split; [by left|done] | by left
          | right; split; [by right|done]].
      * intros [?|[[->|?] ?]]; [left; by right | left; by left | by right].
    + assert (¬ is_Some (objGet V (key r))) by (rewrite E; by intros [? ?]).
      split.
      * intros [?|[? ?]]; [by left | right; split; [by right|done]].
      * intros [?|[[->|?] ?]]; [by left | done | by right].
Qed.

(** The first loop rewrites the blocks in place and leaves the gaps. *)
Lemma rangeFold_layout V items t pre (o : nat) (F : gset str) :
  o = length pre →
  (fold_left (rangeStep V) (rev (rangesOf o items))
     (pre ++ flatten items t, F)).1
  = pre ++ flatten (rewriteItems V items) t.
Proof.
  revert pre o F; induction items as [|[g B] items IH]; intros pre o F ->;
    [done|].
  cbn [rangesOf rev]. rewrite fold_left_app. cbn [fold_left flatten].
  specialize (IH (pre ++ g ++ B) (length pre + length g + length B) F).
  rewrite <- !app_assoc in IH. specialize (IH ltac:(rewrite !length_app; lia)).
  destruct (fold_left _ _ _) as [c' F'].
  cbn [fst] in IH. subst c'.
  unfold rangeStep. cbn [key value start end_ rewriteItems map flatten fst snd].
  fold (rewriteItems V items). unfold newBlock.
  destruct (objGet V (blockKey B)) as [v|]; cbn [fst];
    [case_bool_decide; [done|]|].
  - rewrite (slice_app_l' _ (pre ++ g) (B ++ flatten (rewriteItems V items) t));
      [|by rewrite <- !app_assoc|unfold len; rewrite length_app; lia].
    rewrite (sliceFrom_app_r' _ (pre ++ g ++ B) (flatten (rewriteItems V items) t));
      [|by rewrite <- !app_assoc|unfold len; rewrite !length_app; lia].
    by rewrite <- !app_assoc.
  - rewrite (slice_app_l' _ (pre ++ g) (B ++ flatten (rewriteItems V items) t));
      [|by rewrite <- !app_assoc|unfold len; rewrite length_app; lia].
    rewrite (sliceFrom_app_r' _ (pre ++ g ++ B) (flatten (rewriteItems V items) t));
      [|by rewrite <- !app_assoc|unfold len; rewrite !length_app; lia].
    by rewrite <- !app_assoc.
Qed.

Lemma rangeLoop_layout V items t :
  (rangeLoop (mkLookup V (rangesOf 0 items) (flatten items t))).1
  = flatten (rewriteItems V items) t.
Proof.
  unfold rangeLoop. cbn [values ValueRanges OriginalContents].
  by rewrite (rangeFold_layout V items t [] 0).
Qed.

(** The second loop puts every new block in front or at the back. *)
Lemma newKeyFold V (F : gset str) (ks : list str) body :
  (∀ k, k ∈ ks → is_Some (objGet V k)) →
  fold_left (newKeyStep V F) ks body
  = concat (map (blockOf V)
      (rev (filter (fun k => goesLast V k = false)
              (filter (fun k => k ∉ F) ks))))
    ++ body
    ++ concat (map (blockOf V)
         (filter (fun k => goesLast V k = true)
            (filter (fun k => k ∉ F) ks))).
Proof.
  revert body; induction ks as [|k ks IH]; intros body Hks.
  - simpl. by rewrite app_nil_r.
  - cbn [fold_left]. rewrite IH by (intros; apply Hks; by right).
    unfold newKeyStep.
    rewrite (filter_cons (fun k => k ∉ F)).
    case_bool_decide; case_decide; try done.
    destruct (Hks k ltac:(left)) as [v Hv].
    assert (goesLast V k = atEnd k v) as HG
      by (unfold goesLast; by rewrite Hv).
    assert (blockOf V k = formatValue k v) as HB
      by (unfold blockOf; by rewrite Hv).
    rewrite Hv, !filter_cons, HG.
    destruct (atEnd k v); repeat case_decide; try done.
    + cbn [map concat]. rewrite HB. by rewrite <- !app_assoc.
    + cbn [rev map]. rewrite map_app, concat_app. cbn [map concat].
      rewrite HB, app_nil_r. by rewrite <- !app_assoc.
Qed.

Lemma filter_ext_elem {A} (P Q : A → Prop) `{!∀ x, Decision (P x)}
    `{!∀ x, Decision (Q x)} (l : list A) :
  (∀ x, x ∈ l → P x ↔ Q x) → filter P l = filter Q l.
Proof.
  induction l as [|x l IH]; intros Hext; [done|].
  rewrite !filter_cons, IH by (intros; apply Hext; by right).
  pose proof (Hext x ltac:(left)). repeat case_decide; tauto.
Qed.

Lemma filter_none {A} (P : A → Prop) `{!∀ x, Decision (P x)} (l : list A) :
  (∀ x, x ∈ l → ¬ P x) → filter P l = [].
Proof.
  induction l as [|x l IH]; intros Hno; [done|].
  rewrite filter_cons, IH by (intros; apply Hno; by right).
  case_decide; [|done]. by destruct (Hno x ltac:(left)).
Qed.

Lemma goesLast_bulky V k : goesLast V k = true ↔ bulky V k.
Proof.
  unfold goesLast, atEnd, bulky.
  rewrite orb_true_iff, Nat.ltb_lt, bool_decide_eq_true. done.
Qed.

Lemma elem_of_rev {A} (x : A) (l : list A) : x ∈ rev l ↔ x ∈ l.
Proof. rewrite !list_elem_of_In. symmetry. apply in_rev. Qed.

(** [getContentsFromLookup] in one line: new blocks in front, the rewritten
    content, new blocks at the back. *)
Lemma getContentsFromLookup_parts (l : Lookup) :
  getContentsFromLookup l = prepended l ++ (rangeLoop l).1 ++ appended l.
Proof.
  unfold getContentsFromLookup, prepended, appended, newKeys, rangeLoop.
  pose proof (fun k => rangeStep_found (values l) (rev (ValueRanges l))
                (OriginalContents l) ∅ k) as HF.
  destruct (fold_left _ _ _) as [body F]. cbn [fst snd] in *.
  rewrite newKeyFold by (intros k Hk; by apply objGet_elem, objKeys_elem).
  rewrite (list_filter_iff (fun k => goesLast (values l) k = true)
             (bulky (values l))) by apply goesLast_bulky.
  rewrite (list_filter_iff (fun k => goesLast (values l) k = false)
             (fun k => ¬ bulky (values l) k)).
  2:{ intros k. rewrite <- goesLast_bulky. by destruct (goesLast _ k). }
  rewrite (filter_ext_elem (fun k => k ∉ F)
             (fun k => k ∉ map key (ValueRanges l))); [done|].
  intros k Hk. rewrite HF, map_rev, elem_of_rev, elem_of_empty.
  apply objKeys_elem, objGet_elem in Hk. tauto.
Qed.

(** *** Gaps and blocks as slices of the original content *)

Lemma outside_layout items t pre (o : nat) :
  o = length pre →
  outside (pre ++ flatten items t) (Z.of_nat o) (rangesOf o items)
  = map fst items ++ [t].
Proof.
  revert pre o; induction items as [|[g B] items IH]; intros pre o ->.
  - cbn [outside rangesOf map flatten app].
    by rewrite (sliceFrom_app_r' _ pre t).
  - cbn [outside rangesOf map flatten app start end_ fst]. f_equal.
    + apply (slice_app_mid' _ pre g (B ++ flatten items t)); [done..|].
      unfold len. lia.
    + specialize (IH (pre ++ g ++ B) (length pre + length g + length B)).
      rewrite <- !app_assoc in IH. apply IH. rewrite !length_app. lia.
Qed.

Lemma rewriteRange_layout V items t pre (o : nat) c :
  o = length pre → c = pre ++ flatten items t →
  map (rewriteRange V c) (rangesOf o items)
  = map (fun it => newBlock V it.2) items.
Proof.
  revert pre o; induction items as [|[g B] items IH]; intros pre o -> Hc;
    [done|].
  cbn [rangesOf map snd]. f_equal.
  - unfold rewriteRange, newBlock. cbn [key value start end_].
    destruct (objGet V (blockKey B)); [|done]. case_bool_decide; [|done].
    apply (slice_app_mid' _ (pre ++ g) B (flatten items t)).
    + by rewrite Hc, <- !app_assoc.
    + unfold len. rewrite length_app. lia.
    + unfold len. rewrite length_app. lia.
  - apply (IH (pre ++ g ++ B)).
    + rewrite !length_app. lia.
    + by rewrite Hc, <- !app_assoc.
Qed.

Lemma weave_layout (f : str → str) items t :
  weave (map fst items ++ [t]) (map (fun it => f it.2) items)
  = flatten (map (fun it => (it.1, f it.2)) items) t.
Proof.
  induction items as [|[g B] items IH]; [done|].
  cbn [map fst snd app weave flatten]. by rewrite IH.
Qed.

End Serializer.

(** * Fingerprints *)

Section Stripped.
Local Open Scope nat_scope.
Local Arguments N.eqb : simpl never.
Implicit Types c s t g B : str.
Implicit Types V o : Obj.
Implicit Types items : list (str * str).

Lemma fold_deleteValue (ks : list str) (l : Lookup) :
  fold_left deleteValue ks l
  = mkLookup (fold_left objDelete ks (values l)) (ValueRanges l)
      (OriginalContents l).
Proof.
  revert l; induction ks as [|k ks IH]; intros l; [by destruct l|].
  cbn [fold_left]. by rewrite IH.
Qed.

Lemma objGet_fold_objDelete (ks : list str) o k :
  NoDup o.*1 →
  objGet (fold_left objDelete ks o) k
  = if decide (k ∈ ks) then None else objGet o k.
Proof.
  revert o; induction ks as [|k0 ks IH]; intros o Ho; cbn [fold_left].
  - case_decide as Hk; [by apply elem_of_nil in Hk|done].
  - rewrite IH, objGet_objDelete by auto using objDelete_NoDup.
    destruct (decide (k ∈ ks)) as [Hin|Hnin].
    + by rewrite decide_True by (by right).
    + destruct (decide (k0 = k)) as [->|Hne].
      * by rewrite decide_True by (by left).
      * rewrite decide_False; [done|].
        intros [?|?]%elem_of_cons; [congruence|done].
Qed.

Lemma obj_empty o : (∀ k, objGet o k = None) → o = [].
Proof.
  destruct o as [|[k v] o]; [done|]. intros H. specialize (H k).
  simpl in H. by rewrite bool_decide_true in H.
Qed.

Lemma delete_all_keys o : NoDup o.*1 → fold_left objDelete (objKeys o) o = [].
Proof.
  intros Ho. apply obj_empty. intros k.
  rewrite objGet_fold_objDelete by done. case_decide as Hk; [done|].
  rewrite objKeys_elem, <- objGet_elem in Hk.
  destruct (objGet o k); [|done]. exfalso. apply Hk. by eexists.
Qed.

Lemma flatten_gaps items t :
  flatten (rewriteItems [] items) t = concat (map fst items) ++ t.
Proof.
  induction items as [|[g B] items IH]; [done|].
  cbn [rewriteItems map flatten concat fst snd]. fold (rewriteItems [] items).
  rewrite IH. unfold newBlock. cbn [objGet app]. by rewrite <- app_assoc.
Qed.

(** What [getHash] feeds to the digest: the gaps and the tail. *)
Lemma stripped_layout c :
  stripped c
  = concat (map fst (layoutOf (S (length c)) c).1)
    ++ (layoutOf (S (length c)) c).2.
Proof.
  unfold stripped. rewrite fold_deleteValue, getCommentValueLookup_layout.
  cbn [values ValueRanges OriginalContents].
  rewrite delete_all_keys by (apply fold_setRange_NoDup; constructor).
  rewrite getContentsFromLookup_parts.
  unfold prepended, appended, newKeys. cbn [values]. rewrite objKeys_nil.
  cbn [filter list_filter rev map concat app]. rewrite app_nil_r.
  rewrite <- (layoutOf_flatten (S (length c)) c) at 3.
  by rewrite rangeLoop_layout, flatten_gaps.
Qed.

Lemma stripped_flatten items t :
  Forall wfItem items → gapFree t ∨ danglingTail t →
  stripped (flatten items t) = concat (map fst items) ++ t.
Proof.
  intros Hwf Ht. rewrite stripped_layout, layoutOf_complete; [done..|].
  pose proof (flatten_length items t Hwf). lia.
Qed.

(** *** Freshly formatted blocks *)

Lemma formatValue_tight k v : space ∉ k → tight (formatValue k v).
Proof.
  intros Hk. unfold tight, formatValue. split; [apply startsWith_app|].
  rewrite find_suffix_prefix.
  rewrite suffix_eq at 1. rewrite find_space_free by done.
  rewrite <- suffix_eq.
  change ([space] ++ escapeClose v ++ suffix)
    with ((space :: escapeClose v) ++ suffix).
  rewrite find_suffix_value.
  - cbn [fmap option_fmap option_map]. f_equal.
    rewrite !length_app, length_prefix, length_suffix. cbn [length]. lia.
  - rewrite find_cons_miss by reflexivity.
    by rewrite escapeClose_closed.
Qed.

Lemma blockKey_space_free B : space ∉ blockKey B.
Proof.
  unfold blockKey, blockKeyEnd.
  destruct (find [space] (drop 14 B)) as [k|] eqn:E; cbn [default]; unfold id.
  - replace (14 + k - 14) with k by lia.
    intros Hin. apply list_elem_of_lookup in Hin as [m Hm].
    pose proof (lookup_lt_Some _ _ _ Hm) as Hlt.
    rewrite length_take in Hlt.
    rewrite lookup_take_lt in Hm by lia.
    pose proof (find_Some_first _ _ _ m E ltac:(lia)) as Hno.
    rewrite (drop_S _ _ _ Hm) in Hno. cbn in Hno.
    by rewrite N.eqb_refl in Hno.
  - replace (14 + 0 - 14) with 0 by lia. cbn. by intros ?%elem_of_nil.
Qed.

Lemma newBlock_tight V B :
  tight B → is_Some (objGet V (blockKey B)) → tight (newBlock V B).
Proof.
  intros HB [v Hv]. unfold newBlock. rewrite Hv.
  case_bool_decide; [done|]. apply formatValue_tight, blockKey_space_free.
Qed.

Lemma rewriteItems_wf V items :
  Forall wfItem items →
  (∀ it, it ∈ items → is_Some (objGet V (blockKey it.2))) →
  Forall wfItem (rewriteItems V items).
Proof.
  induction 1 as [|[g B] items [Hg HB] _ IH]; intros HV; [constructor|].
  cbn [rewriteItems map]. constructor.
  - split; [done|]. apply newBlock_tight; [done|]. apply (HV (g, B)). left.
  - apply IH. intros it Hit. apply HV. by right.
Qed.

Lemma rewriteItems_gaps V items :
  map fst (rewriteItems V items) = map fst items.
Proof. unfold rewriteItems. rewrite map_map. done. Qed.

Lemma rangesOf_keys (o : nat) items :
  map key (rangesOf o items) = map (fun it => blockKey it.2) items.
Proof.
  revert o; induction items as [|[g B] items IH]; intros o; [done|].
  cbn [rangesOf map key snd]. by rewrite IH.
Qed.

(** *** Blocks in front and at the back *)

Lemma flatten_app items1 items2 t :
  flatten (items1 ++ items2) t = flatten items1 (flatten items2 t).
Proof.
  induction items1 as [|[g B] items1 IH]; [done|].
  cbn [app flatten]. by rewrite IH.
Qed.

Lemma flatten_snoc items t s : flatten items t ++ s = flatten items (t ++ s).
Proof.
  induction items as [|[g B] items IH]; [done|].
  cbn [flatten]. by rewrite <- !app_assoc, IH.
Qed.

Lemma flatten_asItems (Bs : list str) s : flatten (asItems Bs) s = concat Bs ++ s.
Proof.
  induction Bs as [|B Bs IH]; [done|].
  cbn [asItems map flatten concat app]. fold (asItems Bs).
  by rewrite IH, <- app_assoc.
Qed.

Lemma asItems_wf (Bs : list str) : Forall tight Bs → Forall wfItem (asItems Bs).
Proof.
  induction 1; constructor; [|done]. split; [reflexivity|done].
Qed.

Lemma asItems_gaps (Bs : list str) : concat (map fst (asItems Bs)) = [].
Proof. induction Bs; [done|]. cbn. done. Qed.

(** Tight blocks in front of and behind a well-formed layout whose tail
    holds no opening marker do not change what is left after stripping. *)
Lemma stripped_framed (Ps Qs : list str) items t :
  Forall tight Ps → Forall tight Qs → Forall wfItem items → gapFree t →
  stripped (concat Ps ++ flatten items t ++ concat Qs)
  = concat (map fst items) ++ t.
Proof.
  intros HP HQ Hit Ht.
  rewrite <- flatten_asItems, flatten_snoc, <- flatten_app.
  destruct HQ as [|Q Qs HQ HQs].
  - cbn [concat]. rewrite app_nil_r, stripped_flatten.
    + by rewrite map_app, concat_app, asItems_gaps.
    + apply Forall_app. split; [by apply asItems_wf|done].
    + by left.
  - cbn [concat].
    replace (flatten (asItems Ps ++ items) (t ++ Q ++ concat Qs))
      with (flatten ((asItems Ps ++ items) ++ (t, Q) :: asItems Qs) []).
    2:{ rewrite (flatten_app (asItems Ps ++ items)). cbn [flatten].
        by rewrite flatten_asItems, app_nil_r. }
    rewrite stripped_flatten.
    + rewrite !map_app, !concat_app. cbn [map concat fst].
      rewrite !asItems_gaps. by rewrite !app_nil_r.
    + repeat (apply Forall_app; split); try by apply asItems_wf.
      * done.
      * constructor; [done|by apply asItems_wf].
    + by left.
Qed.

End Stripped.

Section Store.
Local Open Scope nat_scope.
Local Arguments N.eqb : simpl never.
Implicit Types c s t g B k v : str.
Implicit Types V o : Obj.
Implicit Types items : list (str * str).

Lemma assign_parts (l : Lookup) (V : list (str * str)) :
  assign l V
  = mkLookup (fold_left setPair V (values l)) (ValueRanges l)
      (OriginalContents l).
Proof.
  revert l; induction V as [|kv V IH]; intros l; [by destruct l|].
  cbn [assign fold_left]. fold (assign (setValue l kv.1 kv.2) V).
  by rewrite IH.
Qed.

Lemma fold_setPair_keys (V : list (str * str)) o x :
  x ∈ (fold_left setPair V o).*1 ↔ x ∈ o.*1 ∨ x ∈ V.*1.
Proof.
  revert o; induction V as [|kv V IH]; intros o; cbn [fold_left fmap list_fmap].
  - rewrite elem_of_nil. tauto.
  - rewrite IH. unfold setPair at 1. rewrite objSet_keys, elem_of_cons. tauto.
Qed.

Lemma parsed_keys c x :
  x ∈ (values (getCommentValueLookup c)).*1
  ↔ x ∈ map key (ValueRanges (getCommentValueLookup c)).
Proof.
  rewrite getCommentValueLookup_layout. cbn [values ValueRanges].
  rewrite fold_setRange_keys, elem_of_nil. tauto.
Qed.

(** *** Where the scan stops *)

Lemma last_rangesOf (o : nat) items :
  default (Z.of_nat o) (last (map end_ (rangesOf o items)))
  = Z.of_nat (o + length (flatten items [])).
Proof.
  revert o; induction items as [|[g B] items IH]; intros o.
  - cbn. f_equal. lia.
  - cbn [rangesOf map end_ flatten]. rewrite last_cons.
    specialize (IH (o + length g + length B)).
    rewrite !length_app.
    destruct (last _) as [y|]; cbn [default] in *; unfold id in *; lia.
Qed.

Lemma closedScan_gapFree c :
  closedScan c ↔ gapFree (layoutOf (S (length c)) c).2.
Proof.
  unfold closedScan, scanEnd, gapFree.
  rewrite getCommentValueLookup_layout. cbn [ValueRanges].
  rewrite (last_rangesOf 0).
  pose proof (layoutOf_flatten (S (length c)) c) as Hc.
  destruct (layoutOf (S (length c)) c) as [items t]. cbn [fst snd] in *.
  rewrite <- (app_nil_l t), <- flatten_snoc in Hc.
  rewrite indexOf_nat by (rewrite <- Hc, length_app; lia).
  cbn [Nat.add]. rewrite <- Hc at 1. rewrite drop_app_length.
  destruct (find prefix t); split; (done || lia).
Qed.

(** *** Fingerprint stability *)

Lemma blockOf_tight V (ks : list str) :
  (∀ k, k ∈ ks → space ∉ k) → Forall tight (map (blockOf V) ks).
Proof.
  intros H. apply Forall_map, Forall_forall. intros k Hk.
  apply formatValue_tight. by apply H.
Qed.

Lemma stripped_serializeWith c (V : list (str * str)) :
  closedScan c → Forall (fun kv => space ∉ kv.1) V →
  stripped (serializeWith c V) = stripped c.
Proof.
  intros Hclosed HV. apply closedScan_gapFree in Hclosed.
  rewrite (stripped_layout c).
  unfold serializeWith. rewrite assign_parts.
  pose proof (parsed_keys c) as Hkeys.
  rewrite getCommentValueLookup_layout in Hkeys |- *.
  cbn [values ValueRanges OriginalContents] in *.
  pose proof (layoutOf_flatten (S (length c)) c) as Hc.
  pose proof (layoutOf_wf (S (length c)) c) as Hwf.
  destruct (layoutOf (S (length c)) c) as [items t]. cbn [fst snd] in *.
  set (V1 := fold_left setPair V _) in *.
  subst c. rewrite getContentsFromLookup_parts, rangeLoop_layout.
  assert (∀ k, k ∈ newKeys (mkLookup V1 (rangesOf 0 items) (flatten items t))
               → space ∉ k) as Hnew.
  { intros k [Hk1 Hk2]%list_elem_of_filter. cbn [values ValueRanges] in *.
    apply objKeys_elem, fold_setPair_keys in Hk2 as [Hk2|Hk2].
    - by apply Hkeys in Hk2.
    - apply list_elem_of_fmap in Hk2 as (kv & -> & Hkv).
      by apply (proj1 (Forall_forall _ _) HV). }
  unfold prepended, appended. cbn [values].
  rewrite stripped_framed; [by rewrite rewriteItems_gaps|..|done].
  - apply blockOf_tight. intros k Hk. apply Hnew.
    apply elem_of_rev, list_elem_of_filter in Hk. tauto.
  - apply blockOf_tight. intros k Hk. apply Hnew.
    apply list_elem_of_filter in Hk. tauto.
  - apply rewriteItems_wf; [done|]. intros it Hit.
    apply objGet_elem, fold_setPair_keys. left. apply Hkeys.
    rewrite rangesOf_keys. apply (list_elem_of_fmap_2 (fun it => blockKey it.2)), Hit.
Qed.

Lemma metaKeys_space_free k : k ∈ metaKeys → space ∉ k.
Proof.
  unfold metaKeys. rewrite !elem_of_cons, elem_of_nil.
  intros [->|[->|[->|[]]]]; apply (bool_decide_unpack _); by vm_compute.
Qed.

(** *** Reading back what was parsed *)



Lemma sameKeySameValue_spec (rs : list Range) r1 r2 :
  sameKeySameValue rs = true → r1 ∈ rs → r2 ∈ rs →
  key r1 = key r2 → value r1 = value r2.
Proof.
  unfold sameKeySameValue. rewrite forallb_forall.
  intros H H1%list_elem_of_In H2%list_elem_of_In Hk.
  specialize (H r1 H1). rewrite forallb_forall in H. specialize (H r2 H2).
  rewrite bool_decide_true in H by done. by apply bool_decide_eq_true in H.
Qed.

Lemma parsed_value c r :
  sameKeySameValue (ValueRanges (getCommentValueLookup c)) = true →
  r ∈ ValueRanges (getCommentValueLookup c) →
  objGet (values (getCommentValueLookup c)) (key r) = Some (value r).
Proof.
  rewrite getCommentValueLookup_layout. cbn [values ValueRanges].
  set (rs := rangesOf 0 _). intros Hsame Hr.
  rewrite objGet_fold_setRange.
  destruct (last (filter _ rs)) as [r'|] eqn:E.
  - apply last_Some_elem_of, list_elem_of_filter in E as [E1 E2].
    f_equal. by apply (sameKeySameValue_spec rs).
  - apply last_None in E.
    assert (r ∈ filter (fun r0 => key r0 = key r) rs) as Hin
      by (by apply list_elem_of_filter).
    rewrite E in Hin. by apply elem_of_nil in Hin.
Qed.

(** *** One formatted block, parsed *)

Lemma blockKeyEnd_formatValue k v :
  space ∉ k → blockKeyEnd (formatValue k v) = 14 + length k.
Proof.
  intros Hk. unfold blockKeyEnd, formatValue.
  rewrite <- length_prefix at 2. rewrite drop_app_length.
  rewrite find_space_free by done.
  rewrite (find_here _ _ (startsWith_app [space] _)).
  cbn [fmap option_fmap option_map default from_option]. unfold id. lia.
Qed.

Lemma blockKey_formatValue k v : space ∉ k → blockKey (formatValue k v) = k.
Proof.
  intros Hk. unfold blockKey. rewrite blockKeyEnd_formatValue by done.
  replace (14 + length k - 14) with (length k) by lia.
  unfold formatValue. rewrite <- length_prefix, drop_app_length.
  apply take_app_length.
Qed.

Lemma blockValue_formatValue k v :
  space ∉ k → blockValue (formatValue k v) = escapeClose v.
Proof.
  intros Hk. unfold blockValue. rewrite blockKeyEnd_formatValue by done.
  unfold formatValue.
  replace (prefix ++ k ++ [space] ++ escapeClose v ++ suffix)
    with ((prefix ++ k ++ [space]) ++ escapeClose v ++ suffix)
    by (by rewrite <- !app_assoc).
  rewrite drop_app_length'
    by (rewrite !length_app, length_prefix; cbn [length]; lia).
  rewrite !length_app, length_prefix, length_suffix. cbn [length].
  replace (_ - _ - _) with (length (escapeClose v)) by lia.
  apply take_app_length.
Qed.

Lemma parse_formatValue k v :
  space ∉ k →
  getCommentValueLookup (formatValue k v)
  = mkLookup [(k, escapeClose v)]
      [mkRange k (escapeClose v) 0 (len (formatValue k v))]
      (formatValue k v).
Proof.
  intros Hk. rewrite getCommentValueLookup_layout.
  replace (layoutOf _ _) with ([(@nil N, formatValue k v)], @nil N).
  - cbn [fst rangesOf fold_left]. unfold setRange. cbn [key value objSet].
    rewrite blockKey_formatValue, blockValue_formatValue by done.
    done.
  - symmetry.
    pose proof (layoutOf_complete (S (length (formatValue k v)))
                  [([], formatValue k v)] []) as H.
    cbn [flatten app] in H. rewrite app_nil_r in H. apply H.
    + repeat constructor. by apply formatValue_tight.
    + by left.
    + cbn [length]. lia.
Qed.

(** *** Slices of the original *)

Lemma spans_layout items t pre (o : nat) c :
  o = length pre → c = pre ++ flatten items t →
  map (fun r => slice c (start r) (end_ r)) (rangesOf o items)
  = map snd items.
Proof.
  revert pre o; induction items as [|[g B] items IH]; intros pre o -> Hc;
    [done|].
  cbn [rangesOf map snd start end_]. f_equal.
  - apply (slice_app_mid' _ (pre ++ g) B (flatten items t)).
    + by rewrite Hc, <- !app_assoc.
    + unfold len. rewrite length_app. lia.
    + unfold len. rewrite length_app. lia.
  - apply (IH (pre ++ g ++ B)).
    + rewrite !length_app. lia.
    + by rewrite Hc, <- !app_assoc.
Qed.

End Store.

(** * The metadata store: what holds *)

(** C1, as the claim states it, fails: a content whose last opening marker
    has no closing marker after it ([prefix ++ "x"]) swallows the [output]
    block appended to it, so with and without that block the stripped
    contents differ. *)
Lemma fingerprint_unstable_after_open_marker :
  ¬ (∀ (digest : str → str) (c : str) (V1 V2 : list (str * str)),
       Forall (fun kv => kv.1 ∈ metaKeys) V1 →
       Forall (fun kv => kv.1 ∈ metaKeys) V2 →
       getHash digest (serializeWith c V1) = getHash digest (serializeWith c V2)
       ∧ getHash digest (serializeWith c V1) = digest (stripped c)).
Proof.
  intros H.
  assert (Forall (fun kv : str * str => kv.1 ∈ metaKeys)
            [(lit "output", lit "hi")]) as HV2.
  { repeat constructor. }
  destruct (H (fun s => s) (prefix ++ lit "x") [] [(lit "output", lit "hi")]
              (Forall_nil_2 _) HV2) as [Heq _].
  vm_compute in Heq. discriminate Heq.
Qed.

(** C1 (amended): for every content [c] whose scan ends because no further
    opening marker is found, and any two assignments [V1], [V2] of values to
    [lastRunHash], [output] and [stop], the fingerprints of [c] serialized
    with [V1] and with [V2] are equal, and both are the fingerprint of [c],
    the digest of [c] with all metadata blocks stripped. *)
Theorem fingerprint_stable (digest : str → str) (c : str)
    (V1 V2 : list (str * str)) :
  closedScan c →
  Forall (fun kv => kv.1 ∈ metaKeys) V1 →
  Forall (fun kv => kv.1 ∈ metaKeys) V2 →
  getHash digest (serializeWith c V1) = getHash digest (serializeWith c V2)
  ∧ getHash digest (serializeWith c V1) = getHash digest c
  ∧ getHash digest c = digest (stripped c).
Proof.
  intros Hc H1 H2. unfold getHash.
  rewrite !stripped_serializeWith; [done|done|..].
  - eapply Forall_impl; [exact H2|]. intros kv. apply metaKeys_space_free.
  - done.
  - eapply Forall_impl; [exact H1|]. intros kv. apply metaKeys_space_free.
Qed.

Lemma fingerprint_stable_witness :
  let c := lit "a();" ++ formatValue (lit "output") (lit "old") ++ lit "b();" in
  let V1 := [(lit "output", lit "x*/y"); (lit "lastRunHash", lit "0f")] in
  let V2 := [(lit "stop", lit "")] in
  closedScan c
  ∧ getHash (fun s => s) (serializeWith c V1)
    = getHash (fun s => s) (serializeWith c V2)
  ∧ getHash (fun s => s) (serializeWith c V1) = getHash (fun s => s) c
  ∧ getHash (fun s => s) c = stripped c.
Proof.
  intros c V1 V2.
  assert (closedScan c) as Hc by (by vm_compute).
  split; [exact Hc|].
  apply (fingerprint_stable (fun s => s) c V1 V2 Hc); repeat constructor.
Defined.




(** C6, as the claim states it, fails for a value that holds the closing
    sequence: what is parsed back is the escaped text, nothing undoes the
    escape. *)
Lemma escaped_value_not_restored :
  objGet (values (getCommentValueLookup
                    (formatValue (lit "output") (lit "a*/b"))))
    (lit "output")
  = Some (lit "a*\/b")
  ∧ lit "a*\/b" ≠ lit "a*/b".
Proof. split; [by vm_compute|by vm_compute]. Qed.

(** C6 (amended): for every key without a space and every value string,
    parsing the block that the serializer formats for them yields one range
    with that key, and the value read back is the escaped value, the
    original with [*\/] in place of every closing sequence; it is the
    original string exactly when that holds no closing sequence. *)
Theorem escape_roundtrip (k v : str) :
  space ∉ k →
  objGet (values (getCommentValueLookup (formatValue k v))) k
  = Some (escapeClose v)
  ∧ map key (ValueRanges (getCommentValueLookup (formatValue k v))) = [k]
  ∧ (escapeClose v = v ↔ find starSlash v = None).
Proof.
  intros Hk. rewrite parse_formatValue by done. cbn [values ValueRanges map key objGet].
  rewrite bool_decide_true by done.
  split; [done|]. split; [done|]. apply escapeClose_fixed.
Qed.

Lemma escape_roundtrip_witness :
  (space ∉ lit "output")
  ∧ objGet (values (getCommentValueLookup
                      (formatValue (lit "output") (lit "*/ */ x"))))
      (lit "output")
    = Some (escapeClose (lit "*/ */ x")).
Proof.
  assert (space ∉ lit "output") as Hk
    by (apply (bool_decide_unpack _); by vm_compute).
  split; [exact Hk|].
  exact (proj1 (escape_roundtrip (lit "output") (lit "*/ */ x") Hk)).
Defined.


(** C10: for every content and every value map, the serialized content is
    the pieces of the original that lie outside all parsed ranges, unchanged
    and in order, with between them what takes the place of each range (the
    range itself, a newly formatted block, or nothing), the prepended blocks
    in front and the appended blocks behind; and those pieces together with
    the ranges make up the original. *)
Theorem serialization_frame (c : str) (V : Obj) :
  getContentsFromLookup
    (mkLookup V (ValueRanges (getCommentValueLookup c)) c)
  = prepended (mkLookup V (ValueRanges (getCommentValueLookup c)) c)
    ++ weave (outside c 0 (ValueRanges (getCommentValueLookup c)))
         (map (rewriteRange V c) (ValueRanges (getCommentValueLookup c)))
    ++ appended (mkLookup V (ValueRanges (getCommentValueLookup c)) c)
  ∧ c = weave (outside c 0 (ValueRanges (getCommentValueLookup c)))
          (map (fun r => slice c (start r) (end_ r))
             (ValueRanges (getCommentValueLookup c))).
Proof.
  rewrite getContentsFromLookup_parts, getCommentValueLookup_layout.
  cbn [ValueRanges].
  pose proof (layoutOf_flatten (S (length c)) c) as Hc.
  destruct (layoutOf (S (length c)) c) as [items t]. cbn [fst snd] in *.
  rewrite (rewriteRange_layout V items t [] 0 c) by done.
  rewrite (spans_layout items t [] 0 c) by done.
  pose proof (outside_layout items t [] 0 eq_refl) as Hout.
  cbn [app] in Hout. rewrite Hc in Hout. change (Z.of_nat 0) with 0%Z in Hout.
  rewrite Hout, (weave_layout (newBlock V)).
  split.
  - do 2 f_equal. rewrite <- Hc at 1. apply rangeLoop_layout.
  - rewrite <- Hc at 1. clear. induction items as [|[g B] items IH]; [done|].
    cbn [flatten map fst snd app weave]. by rewrite <- IH.
Qed.

(** * Running a file: what holds *)

Section RunFacts.

Variable digest : str → str.
Variable scriptFolder : str.

Lemma parsed_NoDup (c : str) : NoDup (values (getCommentValueLookup c)).*1.
Proof.
  rewrite getCommentValueLookup_layout. cbn [values].
  apply fold_setRange_NoDup. constructor.
Qed.

Lemma objHas_objDelete (o : Obj) (k : str) :
  NoDup o.*1 → objHas (objDelete o k) k = false.
Proof.
  intros Ho. unfold objHas. rewrite objGet_objDelete by done.
  by rewrite decide_True.
Qed.

(** [writeContents], run without interruption, in one piece. *)
Lemma writeContents_whole (readResult writeError : option str) (j : Job) :
  writeContents digest scriptFolder readResult writeError j
  = if done j then (j, [], Returned) else
    let testCurOutputValues := getCommentValueLookup <$> readResult in
    let shouldKill :=
      match testCurOutputValues with
      | Some t => objHas (values t) (lit "stop")
      | None => false
      end in
    let '(outputValues1, effects) :=
      match testCurOutputValues with
      | Some t =>
          if objHas (values t) (lit "stop")
          then (t, [Log (lit "Trying to stop previous run of file "
                           ++ fileName j);
                    Kill (lit "SIGKILL")])
          else (setValue (setValue (outputValues j) (lit "output") (output j))
                  (lit "lastRunHash") (hash j), [])
      | None =>
          (setValue (setValue (outputValues j) (lit "output") (output j))
             (lit "lastRunHash") (hash j), [])
      end in
    let outputValues2 := deleteValue outputValues1 (lit "stop") in
    let contents2 := getContentsFromLookup outputValues2 in
    let j2 := mkJob (fileName j) contents2 outputValues2 (hash j) (output j)
                (done j) in
    if negb shouldKill
       && negb (bool_decide (hash j = getHash digest contents2))
    then (j2, effects, Threw hashChangeError)
    else match writeError with
         | Some err => (j2, effects, Threw err)
         | None =>
             (mkJob (fileName j) contents2 outputValues2 (hash j) (output j)
                (shouldKill || done j),
              effects ++ [WriteFile (filePathOf scriptFolder (fileName j))
                            contents2],
              Returned)
         end.
Proof.
  unfold writeContents, writeContentsBody, writeContentsSettle.
  destruct (done j); [done|].
  destruct readResult as [c|]; cbn [fmap option_fmap option_map].
  - destruct (objHas (values (getCommentValueLookup c)) (lit "stop"));
      cbn [negb andb]; [|case_bool_decide; cbn [negb]];
      destruct writeError; by rewrite ?app_nil_r.
  - cbn [negb andb]. case_bool_decide; cbn [negb];
      destruct writeError; by rewrite ?app_nil_r.
Qed.

Lemma writeContents_done (readResult writeError : option str) (j : Job) :
  done j = true →
  writeContents digest scriptFolder readResult writeError j
  = (j, [], Returned).
Proof. intros H. unfold writeContents. by rewrite H. Qed.

(** C5: a file whose [lastRunHash] value is the fingerprint of its
    content is abandoned at the gate: no job, no fork, no write, no
    log. *)
Theorem skip_on_unchanged (fileName c : str) (statOk : bool) :
  objGet (values (getCommentValueLookup c)) (lit "lastRunHash")
  = Some (getHash digest c) →
  startRun digest scriptFolder fileName (Some c) statOk = (None, []).
Proof.
  intros H. unfold startRun. destruct statOk; [|done].
  cbn [negb]. by rewrite bool_decide_true.
Qed.

(** A checkpoint that does not cancel and whose serialized content has
    another fingerprint than the gate's throws before it writes. *)
Lemma mismatch_throws (j : Job) (readResult writeError : option str) :
  done j = false →
  (∀ c, readResult = Some c →
        objHas (values (getCommentValueLookup c)) (lit "stop") = false) →
  hash j ≠ getHash digest
             (getContentsFromLookup
                (deleteValue
                   (setValue (setValue (outputValues j) (lit "output")
                                (output j)) (lit "lastRunHash") (hash j))
                   (lit "stop"))) →
  (writeContents digest scriptFolder readResult writeError j).1.2 = []
  ∧ (writeContents digest scriptFolder readResult writeError j).2
    = Threw hashChangeError.
Proof.
  intros Hdone Hstop Hne. unfold writeContents, writeContentsBody.
  rewrite Hdone.
  destruct readResult as [c|]; cbn [fmap option_fmap option_map];
    [rewrite (Hstop c eq_refl)|];
    cbn [negb andb]; rewrite bool_decide_false by done; done.
Qed.

(** The awaited, final checkpoint: its error reaches the [catch] of
    [runOnFileName], is logged there, and the [finally] still clears the
    pending mark and fires a queued trigger. *)
Lemma final_error_contained (fileName err : str) (c : Coordinator) :
  fileName ∈ filesPending c → fileName ∈ filesPendingTrigger c →
  afterRun fileName (Threw err) c
  = (mkCoordinator
       ({[ fileName ]} ∪ (filesPending c ∖ {[ fileName ]}))
       (filesPendingTrigger c ∖ {[ fileName ]}),
     [LogError (lit "Error running " ++ fileName) err], true).
Proof.
  intros Hp Ht. unfold afterRun, runOnFileName.
  cbn [filesPending filesPendingTrigger].
  rewrite bool_decide_true by done.
  rewrite bool_decide_false; [done|].
  rewrite elem_of_difference, elem_of_singleton. tauto.
Qed.

(** The listener on the child's [stderr] waits for ["err"], chunks come
    as ["data"]: nothing the child writes there reaches [output]. *)
Lemma stderr_dropped (j : Job) (data : str) :
  deliver j (Chunk ProcStderr data) = (j, false).
Proof. done. Qed.

Lemma stdout_kept (j : Job) (data : str) :
  output (deliver j (Chunk ProcStdout data)).1 = output j ++ data.
Proof. done. Qed.

Lemma exit_trailer (j : Job) (code : option N) :
  output (deliver j (Exit code)).1
  = output j ++ (if bool_decide (code = Some 0%N) then []
                 else [newline] ++ lit "Exit code non-0, was "
                        ++ showCode code ++ [newline]).
Proof.
  unfold deliver, onEvent. rewrite bool_decide_true by done.
  case_bool_decide; cbn [fst output]; by rewrite ?app_nil_r.
Qed.

End RunFacts.

Lemma skip_on_unchanged_witness :
  let c := lit "run();" ++ formatValue (lit "lastRunHash") (lit "run();") in
  objGet (values (getCommentValueLookup c)) (lit "lastRunHash")
  = Some (getHash (fun s => s) c)
  ∧ startRun (fun s => s) (lit "dir") (lit "a.js") (Some c) true = (None, []).
Proof.
  intros c.
  assert (objGet (values (getCommentValueLookup c)) (lit "lastRunHash")
          = Some (getHash (fun s => s) c)) as H by (by vm_compute).
  split; [exact H|].
  exact (skip_on_unchanged (fun s => s) (lit "dir") (lit "a.js") c true H).
Defined.

(** C7 (evaluated): a file that ends in an opening marker without closing
    marker passes the gate; the first checkpoint, made by [writeLoop],
    finds another fingerprint, throws before writing, and the error is an
    unhandled rejection of the loop's promise, which ends the loop; it is
    not logged by [runOnFileName].  Only the final, awaited checkpoint
    hands its error to [runOnFileName]. *)
Theorem hash_mismatch_in_write_loop_unhandled :
  let c : str := prefix ++ lit "x" in
  let j := mkJob (lit "a.js") c (getCommentValueLookup c)
             (getHash (fun s => s) c) [newline] false in
  startRun (fun s => s) (lit "dir") (lit "a.js") (Some c) true
  = (Some j, [Log (lit "Rerunning a.js"); Fork (lit "dir/a.js")])
  ∧ (periodicCheckpoint (fun s => s) (lit "dir") (Some c) None j).1.2
    = [UnhandledRejection hashChangeError]
  ∧ (periodicCheckpoint (fun s => s) (lit "dir") (Some c) None j).2 = false
  ∧ (finishRun (fun s => s) (lit "dir") (Some c) None j).1.2
    = [Log (lit "Finished a.js")]
  ∧ (finishRun (fun s => s) (lit "dir") (Some c) None j).2
    = Threw hashChangeError.
Proof. repeat split; by vm_compute. Qed.

(** C8 (evaluated): of what the child writes, the stored output holds the
    text of [stdout] and the trailer of a non-zero exit code; the text of
    [stderr] is missing. *)
Theorem stderr_text_missing_from_output (j : Job) (out err : str)
    (code : option N) :
  output (deliverAll j [Chunk ProcStderr err; Chunk ProcStdout out;
                        Exit code; StdoutEnd])
  = output j ++ out
    ++ (if bool_decide (code = Some 0%N) then []
        else [newline] ++ lit "Exit code non-0, was " ++ showCode code
               ++ [newline]).
Proof.
  unfold deliverAll, deliver. cbn [fold_left]. unfold onEvent.
  rewrite !(bool_decide_true (lit _ = lit _)) by done.
  rewrite (bool_decide_false (lit "data" = lit "err")) by done.
  cbn [fst]. destruct (bool_decide (code = Some 0%N));
    cbn [fst output fileName contents outputValues hash done].
  - by rewrite app_nil_r.
  - by rewrite <- app_assoc.
Qed.

(** * The run coordinator: what holds *)

Section Coordinator.
Local Open Scope nat_scope.
Implicit Types f g : str.
Implicit Types l : list str.
Implicit Types s : System.

Lemma count_app f l1 l2 : count f (l1 ++ l2) = count f l1 + count f l2.
Proof. unfold count. by rewrite filter_app, length_app. Qed.

Lemma count_single f g : count f [g] = if decide (g = f) then 1 else 0.
Proof. unfold count. rewrite filter_cons, filter_nil. by case_decide. Qed.

Lemma count_cons f g l :
  count f (g :: l) = (if decide (g = f) then 1 else 0) + count f l.
Proof. unfold count. rewrite filter_cons. by case_decide. Qed.

Lemma count_pos f l : f ∈ l ↔ 0 < count f l.
Proof.
  induction l as [|g l IH].
  { unfold count. rewrite elem_of_nil, filter_nil. cbn [length]. lia. }
  rewrite elem_of_cons, count_cons, IH. case_decide; subst.
  - split; [lia|by left].
  - split; [intros [?|?]; [congruence|lia]|intros; right; lia].
Qed.

Lemma count_removeFirst f g l :
  count f (removeFirst g l)
  = count f l - (if decide (g = f) then (if decide (g ∈ l) then 1 else 0)
                 else 0).
Proof.
  induction l as [|x l IH].
  { cbn [removeFirst]. unfold count. rewrite filter_nil. cbn [length]. lia. }
  cbn [removeFirst]. case_bool_decide as Hx.
  - subst x. rewrite count_cons. rewrite (decide_True (P := g ∈ g :: l))
      by left. repeat case_decide; lia.
  - rewrite !count_cons, IH.
    destruct (decide (g = f)) as [->|Hgf].
    + rewrite (decide_False (P := x = f)) by done.
      destruct (decide (f ∈ l)) as [Hin|Hin].
      * rewrite decide_True by (by right). done.
      * rewrite decide_False; [done|].
        intros [?|?]%elem_of_cons; [congruence|done].
    + lia.
Qed.

Lemma launch_count f g (b : bool) l :
  count f (launch g b l)
  = count f l + (if b then (if decide (g = f) then 1 else 0) else 0).
Proof.
  destruct b; cbn [launch]; [|lia]. by rewrite count_app, count_single.
Qed.

Lemma inFlightCount_count f s : inFlightCount f s = count f (inFlight s).
Proof. done. Qed.

Lemma runsOf_count f s : runsOf f s = count f (started s).
Proof. done. Qed.

(** *** The five ways a step can go *)

Lemma step_Trigger_busy (P T : gset str) fl st g :
  g ∈ P →
  step (mkSystem (mkCoordinator P T) fl st) (Trigger g)
  = mkSystem (mkCoordinator P ({[ g ]} ∪ T)) fl st.
Proof.
  intros Hg. cbn [step coordinator inFlight started]. unfold runOnFileName.
  cbn [filesPending filesPendingTrigger]. by rewrite bool_decide_true.
Qed.

Lemma step_Trigger_idle (P T : gset str) fl st g :
  g ∉ P →
  step (mkSystem (mkCoordinator P T) fl st) (Trigger g)
  = mkSystem (mkCoordinator ({[ g ]} ∪ P) T) (fl ++ [g]) (st ++ [g]).
Proof.
  intros Hg. cbn [step coordinator inFlight started]. unfold runOnFileName.
  cbn [filesPending filesPendingTrigger]. by rewrite bool_decide_false.
Qed.

Lemma step_Settled_none (P T : gset str) fl st g o :
  g ∉ fl →
  step (mkSystem (mkCoordinator P T) fl st) (Settled g o)
  = mkSystem (mkCoordinator P T) fl st.
Proof.
  intros Hg. cbn [step coordinator inFlight started].
  by rewrite bool_decide_false.
Qed.

Lemma step_Settled_again (P T : gset str) fl st g o :
  g ∈ fl → g ∈ T →
  step (mkSystem (mkCoordinator P T) fl st) (Settled g o)
  = mkSystem (mkCoordinator ({[ g ]} ∪ (P ∖ {[ g ]})) (T ∖ {[ g ]}))
      (removeFirst g fl ++ [g]) (st ++ [g]).
Proof.
  intros Hg HT. cbn [step coordinator inFlight started].
  rewrite bool_decide_true by done. unfold afterRun, runOnFileName.
  cbn [filesPending filesPendingTrigger].
  rewrite bool_decide_true by done.
  rewrite bool_decide_false; [done|].
  rewrite elem_of_difference, elem_of_singleton. tauto.
Qed.

Lemma step_Settled_last (P T : gset str) fl st g o :
  g ∈ fl → g ∉ T →
  step (mkSystem (mkCoordinator P T) fl st) (Settled g o)
  = mkSystem (mkCoordinator (P ∖ {[ g ]}) T) (removeFirst g fl) st.
Proof.
  intros Hg HT. cbn [step coordinator inFlight started].
  rewrite bool_decide_true by done. unfold afterRun.
  cbn [filesPending filesPendingTrigger].
  by rewrite bool_decide_false.
Qed.

Lemma coherent_initial : coherent initial.
Proof.
  intros f. split.
  - rewrite decide_False by apply not_elem_of_empty. done.
  - by intros ?%not_elem_of_empty.
Qed.

Lemma coherent_inFlight s g :
  coherent s → g ∈ inFlight s ↔ g ∈ filesPending (coordinator s).
Proof.
  intros Hs. destruct (Hs g) as [Hc _]. rewrite inFlightCount_count in Hc.
  rewrite count_pos, Hc. case_decide; split; (done || lia).
Qed.

Lemma coherent_step s e : coherent s → coherent (step s e).
Proof.
  intros Hs f. destruct (Hs f) as [Hc Ht].
  pose proof (fun g => coherent_inFlight s g Hs) as Hin.
  destruct s as [[P T] fl st]. rewrite inFlightCount_count in *.
  cbn [coordinator filesPending filesPendingTrigger inFlight] in *.
  destruct e as [g|g o].
  - destruct (decide (g ∈ P)) as [HgP|HgP].
    + rewrite step_Trigger_busy by done.
      cbn [coordinator filesPending filesPendingTrigger inFlight].
      split; [done|]. rewrite elem_of_union, elem_of_singleton.
      intros [->|?]; [done|by apply Ht].
    + rewrite step_Trigger_idle by done.
      cbn [coordinator filesPending filesPendingTrigger inFlight].
      rewrite count_app, count_single, Hc. split.
      * destruct (decide (g = f)) as [->|Hgf].
        -- rewrite decide_False by done. rewrite decide_True; [done|].
           apply elem_of_union. left. by apply elem_of_singleton.
        -- destruct (decide (f ∈ P)) as [HfP|HfP].
           ++ rewrite decide_True; [done|]. apply elem_of_union. by right.
           ++ rewrite decide_False; [done|].
              rewrite elem_of_union, elem_of_singleton.
              intros [?|?]; [congruence|done].
      * intros ?. apply elem_of_union. right. by apply Ht.
  - destruct (decide (g ∈ fl)) as [Hgfl|Hgfl];
      [|by rewrite step_Settled_none by done].
    assert (g ∈ P) as HgP by (by apply Hin).
    destruct (decide (g ∈ T)) as [HgT|HgT].
    + rewrite step_Settled_again by done.
      cbn [coordinator filesPending filesPendingTrigger inFlight].
      rewrite count_app, count_single, count_removeFirst, Hc. split.
      * destruct (decide (g = f)) as [->|Hgf].
        -- rewrite (decide_True (P := f ∈ fl)) by done.
           rewrite (decide_True (P := f ∈ P)) by done.
           rewrite decide_True; [done|].
           apply elem_of_union. left. by apply elem_of_singleton.
        -- rewrite Nat.sub_0_r, Nat.add_0_r.
           destruct (decide (f ∈ P)) as [HfP|HfP].
           ++ rewrite decide_True; [done|]. apply elem_of_union. right.
              apply elem_of_difference. split; [done|].
              rewrite elem_of_singleton. congruence.
           ++ rewrite decide_False; [done|].
              rewrite elem_of_union, elem_of_difference, !elem_of_singleton.
              intros [?|[? ?]]; [congruence|done].
      * rewrite elem_of_difference, elem_of_singleton. intros [HfT Hfg].
        apply elem_of_union. right. apply elem_of_difference.
        split; [by apply Ht|]. by rewrite elem_of_singleton.
    + rewrite step_Settled_last by done.
      cbn [coordinator filesPending filesPendingTrigger inFlight].
      rewrite count_removeFirst, Hc. split.
      * destruct (decide (g = f)) as [->|Hgf].
        -- rewrite (decide_True (P := f ∈ fl)) by done.
           rewrite (decide_True (P := f ∈ P)) by done.
           rewrite decide_False; [done|].
           rewrite elem_of_difference, elem_of_singleton. tauto.
        -- rewrite Nat.sub_0_r.
           destruct (decide (f ∈ P)) as [HfP|HfP].
           ++ rewrite decide_True; [done|].
              apply elem_of_difference. split; [done|].
              rewrite elem_of_singleton. congruence.
           ++ rewrite decide_False; [done|].
              rewrite elem_of_difference. tauto.
      * intros HfT. apply elem_of_difference. split; [by apply Ht|].
        rewrite elem_of_singleton. intros ->. done.
Qed.

Lemma coherent_runEvents s es : coherent s → coherent (runEvents s es).
Proof.
  revert s; induction es as [|e es IH]; intros s Hs; [done|].
  cbn [runEvents fold_left]. apply IH, coherent_step, Hs.
Qed.

End Coordinator.

Section Debounce.
Local Open Scope nat_scope.
Implicit Types f g : str.
Implicit Types s : System.

(** While the run of [f] is in flight and does not settle, [f] stays
    pending, no run of [f] is started, and a trigger of [f] is
    remembered. *)
Lemma quiet_step s e f :
  coherent s → f ∈ filesPending (coordinator s) →
  quietFor f [e] = true →
  f ∈ filesPending (coordinator (step s e))
  ∧ runsOf f (step s e) = runsOf f s
  ∧ (f ∈ filesPendingTrigger (coordinator s) ∨ triggers f [e] = true
     → f ∈ filesPendingTrigger (coordinator (step s e))).
Proof.
  intros Hs Hf Hq.
  pose proof (fun g => coherent_inFlight s g Hs) as Hin.
  destruct s as [[P T] fl st]. rewrite !runsOf_count.
  cbn [coordinator filesPending filesPendingTrigger inFlight started] in *.
  destruct e as [g|g o]; cbn [quietFor triggers forallb existsb] in *.
  - destruct (decide (g ∈ P)) as [HgP|HgP].
    + rewrite step_Trigger_busy by done.
      cbn [coordinator filesPending filesPendingTrigger started].
      split; [done|]. split; [done|].
      rewrite orb_false_r, bool_decide_eq_true, elem_of_union,
        elem_of_singleton. intros [?|?]; [by right|by left].
    + rewrite step_Trigger_idle by done.
      cbn [coordinator filesPending filesPendingTrigger started].
      assert (g ≠ f) as Hgf by (intros ->; done).
      split; [apply elem_of_union; by right|].
      split; [rewrite count_app, count_single, decide_False by done; lia|].
      rewrite orb_false_r, bool_decide_eq_true. intros [?|?]; done.
  - rewrite andb_true_r, negb_true_iff, bool_decide_eq_false in Hq.
    rewrite orb_false_r.
    destruct (decide (g ∈ fl)) as [Hgfl|Hgfl].
    2:{ rewrite step_Settled_none by done.
        cbn [coordinator filesPending filesPendingTrigger started].
        split; [done|]. split; [done|]. intros [?|?]; done. }
    destruct (decide (g ∈ T)) as [HgT|HgT].
    + rewrite step_Settled_again by done.
      cbn [coordinator filesPending filesPendingTrigger started].
      split.
      { apply elem_of_union. right. apply elem_of_difference.
        split; [done|]. rewrite elem_of_singleton. congruence. }
      split; [rewrite count_app, count_single, decide_False by done; lia|].
      intros [?|?]; [|done]. apply elem_of_difference.
      split; [done|]. rewrite elem_of_singleton. congruence.
    + rewrite step_Settled_last by done.
      cbn [coordinator filesPending filesPendingTrigger started].
      split.
      { apply elem_of_difference.
        split; [done|]. rewrite elem_of_singleton. congruence. }
      split; [done|]. intros [?|?]; done.
Qed.

Lemma quiet_run s es f :
  coherent s → f ∈ filesPending (coordinator s) →
  quietFor f es = true →
  f ∈ filesPending (coordinator (runEvents s es))
  ∧ runsOf f (runEvents s es) = runsOf f s
  ∧ (f ∈ filesPendingTrigger (coordinator s) ∨ triggers f es = true
     → f ∈ filesPendingTrigger (coordinator (runEvents s es))).
Proof.
  revert s; induction es as [|e es IH]; intros s Hs Hf Hq.
  - split; [done|]. split; [done|]. intros [?|?]; done.
  - cbn [quietFor forallb] in Hq. apply andb_true_iff in Hq as [Hq1 Hq2].
    destruct (quiet_step s e f Hs Hf) as (Hf' & Hr & Ht).
    { cbn [quietFor forallb]. by rewrite Hq1. }
    destruct (IH (step s e) (coherent_step s e Hs) Hf' Hq2)
      as (Hf'' & Hr' & Ht').
    cbn [runEvents fold_left]. fold (runEvents (step s e) es).
    split; [done|]. split; [by rewrite Hr', Hr|].
    intros Hor. apply Ht'. cbn [triggers existsb] in Hor.
    destruct Hor as [?|[?|?]%orb_true_iff].
    + left. apply Ht. by left.
    + left. apply Ht. right. cbn [triggers existsb]. by rewrite orb_false_r.
    + by right.
Qed.

Lemma runEvents_app s es1 es2 :
  runEvents s (es1 ++ es2) = runEvents (runEvents s es1) es2.
Proof. apply fold_left_app. Qed.

End Debounce.

(** C4: whatever the events so far, no file name has more than one run in
    flight; and when a run of [f] is in flight, any events that arrive
    before it settles and hold at least one trigger of [f] (five, say)
    start no run of [f], the settling of the run in flight starts exactly
    one, and the settling of that one starts none. *)
Theorem debounce (es es' : list CoordEvent) (f : str) (o1 o2 : Outcome) :
  (∀ g, (inFlightCount g (runEvents initial es) ≤ 1)%nat)
  ∧ (f ∈ inFlight (runEvents initial es) →
     quietFor f es' = true → triggers f es' = true →
     runsOf f (runEvents (runEvents initial es) es')
     = runsOf f (runEvents initial es)
     ∧ runsOf f (runEvents (runEvents initial es) (es' ++ [Settled f o1]))
       = S (runsOf f (runEvents initial es))
     ∧ inFlightCount f
         (runEvents (runEvents initial es) (es' ++ [Settled f o1])) = 1%nat
     ∧ runsOf f (runEvents (runEvents initial es)
                   (es' ++ [Settled f o1; Settled f o2]))
       = S (runsOf f (runEvents initial es))
     ∧ inFlightCount f
         (runEvents (runEvents initial es)
            (es' ++ [Settled f o1; Settled f o2])) = 0%nat).
Proof.
  pose proof (coherent_runEvents initial es coherent_initial) as Hs.
  set (s := runEvents initial es) in *.
  split.
  { intros g. destruct (Hs g) as [-> _]. case_decide; lia. }
  intros Hin Hq Ht.
  apply (coherent_inFlight s f Hs) in Hin.
  destruct (quiet_run s es' f Hs Hin Hq) as (Hf1 & Hr1 & Ht1).
  specialize (Ht1 (or_intror Ht)).
  pose proof (coherent_runEvents s es' Hs) as Hs1.
  rewrite !runEvents_app. set (s1 := runEvents s es') in *.
  split; [done|].
  pose proof (proj2 (coherent_inFlight s1 f Hs1) Hf1) as Hfl1.
  destruct (Hs1 f) as [Hc1 _]. rewrite decide_True in Hc1 by done.
  rewrite inFlightCount_count in Hc1.
  destruct s1 as [[P T] fl st].
  cbn [coordinator filesPending filesPendingTrigger inFlight] in *.
  change (runEvents ?x [Settled f o1]) with (step x (Settled f o1)).
  change (runEvents ?x [Settled f o1; Settled f o2])
    with (step (step x (Settled f o1)) (Settled f o2)).
  rewrite step_Settled_again by done.
  rewrite (step_Settled_last _ _ _ _ f o2).
  - rewrite !runsOf_count, !inFlightCount_count.
    cbn [started inFlight].
    rewrite !count_removeFirst, !count_app, !count_single, !count_removeFirst.
    rewrite !(decide_True (P := f = f)) by done.
    rewrite (decide_True (P := f ∈ fl)) by done.
    rewrite decide_True.
    + rewrite !runsOf_count in Hr1. cbn [started] in Hr1. lia.
    + apply elem_of_app. right. by apply list_elem_of_singleton.
  - apply elem_of_app. right. by apply list_elem_of_singleton.
  - rewrite elem_of_difference, elem_of_singleton. tauto.
Qed.

Lemma debounce_witness :
  let a : str := lit "a.js" in
  let b : str := lit "b.js" in
  let es := [Trigger a; Trigger b] in
  let es' := [Trigger a; Trigger a; Settled b Returned; Trigger a; Trigger b;
              Trigger a; Trigger a] in
  a ∈ inFlight (runEvents initial es)
  ∧ quietFor a es' = true ∧ triggers a es' = true
  ∧ runsOf a (runEvents initial es) = 1%nat
  ∧ runsOf a (runEvents (runEvents initial es)
                (es' ++ [Settled a Returned; Settled a (Threw [])]))
    = 2%nat.
Proof.
  intros a b es es'.
  assert (a ∈ inFlight (runEvents initial es)) as Hin
    by (apply (bool_decide_unpack _); by vm_compute).
  assert (quietFor a es' = true) as Hq by (by vm_compute).
  assert (triggers a es' = true) as Ht by (by vm_compute).
  assert (runsOf a (runEvents initial es) = 1%nat) as Hr by (by vm_compute).
  repeat (split; [assumption|]).
  pose proof (proj1 (proj2 (proj2 (proj2
           (proj2 (debounce es es' a Returned (Threw [])) Hin Hq Ht)))))
    as H.
  rewrite Hr in H. exact H.
Defined.

(** * More on the parser *)

Section ParserFacts.
Local Open Scope nat_scope.
Local Arguments N.eqb : simpl never.
Implicit Types c s t g B pre : str.
Implicit Types items : list (str * str).

Lemma layoutOf_none c :
  indexOf c prefix 0 = (-1)%Z ∨ indexOf c suffix (indexOf c prefix 0) = (-1)%Z →
  layoutOf (S (length c)) c = ([], c).
Proof.
  change 0%Z with (Z.of_nat 0). rewrite (indexOf_nat c prefix 0) by lia.
  change (drop 0 c) with c. cbn [layoutOf Nat.add].
  destruct (find prefix c) as [i|] eqn:Fp; [|done].
  pose proof (find_Some_le _ _ _ Fp) as Hi.
  rewrite indexOf_nat by done.
  destruct (find suffix (drop i c)); [|done]. lia.
Qed.

Lemma rangesWithin_count (from upto : Z) (rs : list Range) :
  rangesWithin from rs upto → (from + 18 * Z.of_nat (length rs) <= upto)%Z.
Proof.
  revert from; induction rs as [|r rs IH]; intros from; cbn [rangesWithin length].
  - lia.
  - intros (H1 & H2 & H3). specialize (IH _ H3). lia.
Qed.

Lemma rangesOf_within (o : nat) items t :
  Forall wfItem items →
  rangesWithin (Z.of_nat o) (rangesOf o items)
    (Z.of_nat (o + length (flatten items t))).
Proof.
  intros Hwf. revert o.
  induction Hwf as [|[g B] items [Hg HB] _ IH]; intros o;
    cbn [rangesOf rangesWithin flatten start end_].
  - lia.
  - apply tight_length in HB. cbn [snd] in HB.
    split; [lia|]. split; [lia|].
    specialize (IH (o + length g + length B)).
    rewrite !length_app.
    replace (o + (length g + (length B + length (flatten items t))))
      with (o + length g + length B + length (flatten items t)) by lia.
    done.
Qed.

(** A block closed at its first closing marker, taken apart. *)
Lemma tight_shape B :
  tight B →
  B = prefix ++ blockKey B ++ [space] ++ blockValue B ++ suffix
  ∨ (blockValue B = [] ∧ B = prefix ++ blockKey B ++ suffix).
Proof.
  intros [Hp Hs]. pose proof (tight_length B (conj Hp Hs)) as HB.
  destruct (block_key_value B _ Hp Hs) as (k & Hk & Hke & HK & HV).
  replace (length B - 4 + 4) with (length B) in HK, HV by lia.
  rewrite take_ge in HK, HV by lia.
  pose proof (startsWith_inv _ _ Hp) as HB1. rewrite length_prefix in HB1.
  pose proof (take_drop k (drop 14 B)) as HD. rewrite <- HK in HD.
  pose proof (find_Some_startsWith _ _ _ Hs) as Hsuf.
  apply startsWith_inv in Hsuf. rewrite length_suffix, drop_drop in Hsuf.
  rewrite (drop_ge B (length B - 4 + 4)), app_nil_r in Hsuf by lia.
  rewrite drop_drop in HD.
  destruct (decide (14 + k = length B - 4)) as [Heq|Hne].
  - right. split.
    + rewrite HV. replace (length B - 4 - (14 + k + 1)) with 0 by lia. done.
    + rewrite Heq, Hsuf in HD. rewrite HB1 at 1. by rewrite <- HD.
  - left.
    pose proof (find_Some_startsWith _ _ _ Hk) as Hsp.
    apply startsWith_inv in Hsp. cbn [length] in Hsp.
    rewrite !drop_drop in Hsp.
    pose proof (take_drop (length B - 4 - (14 + k + 1)) (drop (14 + k + 1) B))
      as HR.
    rewrite <- HV, drop_drop in HR.
    replace (14 + k + 1 + (length B - 4 - (14 + k + 1))) with (length B - 4)
      in HR by lia.
    rewrite Hsuf in HR.
    rewrite HB1 at 1. rewrite <- HD, Hsp. by rewrite HR.
Qed.

(** Every range stands for one item of the layout. *)
Lemma rangesOf_elem items t pre (o : nat) c r :
  o = length pre → c = pre ++ flatten items t →
  r ∈ rangesOf o items →
  ∃ it, it ∈ items ∧ key r = blockKey it.2 ∧ value r = blockValue it.2
        ∧ slice c (start r) (end_ r) = it.2.
Proof.
  revert pre o; induction items as [|[g B] items IH]; intros pre o -> Hc Hr.
  { by apply elem_of_nil in Hr. }
  cbn [rangesOf] in Hr. apply elem_of_cons in Hr as [->|Hr].
  - exists (g, B). split; [left|]. cbn [key value start end_ snd].
    split; [done|]. split; [done|].
    apply (slice_app_mid' _ (pre ++ g) B (flatten items t)).
    + by rewrite Hc, <- !app_assoc.
    + unfold len. rewrite length_app. lia.
    + unfold len. rewrite length_app. lia.
  - destruct (IH (pre ++ g ++ B) (length pre + length g + length B))
      as (it & Hit & H); [rewrite !length_app; lia| |done|].
    + by rewrite Hc, <- !app_assoc.
    + exists it. split; [by right|done].
Qed.

Lemma parsed_layout c :
  ∃ items t, c = flatten items t ∧ Forall wfItem items
             ∧ (gapFree t ∨ danglingTail t)
             ∧ ValueRanges (getCommentValueLookup c) = rangesOf 0 items
             ∧ values (getCommentValueLookup c)
               = fold_left setRange (rangesOf 0 items) [].
Proof.
  exists (layoutOf (S (length c)) c).1, (layoutOf (S (length c)) c).2.
  split; [by rewrite layoutOf_flatten|].
  split; [apply layoutOf_wf|].
  split; [apply layoutOf_tail_end; lia|].
  by rewrite getCommentValueLookup_layout.
Qed.

End ParserFacts.

(** X1: a content without opening marker, or whose first opening marker has
    no closing marker after it, has no ranges and an empty value map;
    serializing gives it back and its fingerprint is the digest of the
    content itself. *)
Theorem no_block_no_metadata (digest : str → str) (c : str) :
  indexOf c prefix 0 = -1 ∨ indexOf c suffix (indexOf c prefix 0) = -1 →
  getCommentValueLookup c = mkLookup [] [] c
  ∧ getContentsFromLookup (getCommentValueLookup c) = c
  ∧ getHash digest c = digest c.
Proof.
  intros H. apply layoutOf_none in H.
  assert (getCommentValueLookup c = mkLookup [] [] c) as Hp
    by (by rewrite getCommentValueLookup_layout, H).
  split; [done|]. split; [by rewrite Hp|].
  unfold getHash. rewrite stripped_layout, H. done.
Qed.

Lemma no_block_no_metadata_witness :
  indexOf (lit "console.log('hi')" ++ prefix ++ lit "output never closed")
    suffix
    (indexOf (lit "console.log('hi')" ++ prefix ++ lit "output never closed")
       prefix 0) = -1
  ∧ getCommentValueLookup
      (lit "console.log('hi')" ++ prefix ++ lit "output never closed")
    = mkLookup [] []
        (lit "console.log('hi')" ++ prefix ++ lit "output never closed").
Proof.
  assert (indexOf
            (lit "console.log('hi')" ++ prefix ++ lit "output never closed")
            suffix
            (indexOf
               (lit "console.log('hi')" ++ prefix ++ lit "output never closed")
               prefix 0) = -1) as H by (by vm_compute).
  split; [exact H|].
  exact (proj1 (no_block_no_metadata (fun s => s) _ (or_intror H))).
Defined.

(** X2: the ranges the parser returns lie within the content, in file
    order and without overlap, and each spans at least the 18 code units of
    the two markers; so a content holds at most a block per 18 code
    units. *)
Theorem ranges_in_order (c : str) :
  rangesWithin 0 (ValueRanges (getCommentValueLookup c)) (len c)
  ∧ 18 * Z.of_nat (length (ValueRanges (getCommentValueLookup c))) <= len c.
Proof.
  destruct (parsed_layout c) as (items & t & Hc & Hwf & _ & Hr & _).
  assert (rangesWithin 0 (ValueRanges (getCommentValueLookup c)) (len c)) as H.
  { rewrite Hr. pose proof (rangesOf_within 0 items t Hwf) as H.
    rewrite <- Hc in H. exact H. }
  split; [done|]. apply rangesWithin_count in H. lia.
Qed.

(** X3: every range the parser returns covers a block of the form opening
    marker, key, space, value, closing marker, or, with an empty value,
    opening marker, key, closing marker (the space of the closing marker
    ends the key); the key holds no space. *)
Theorem parsed_block_shape (c : str) (r : Range) :
  r ∈ ValueRanges (getCommentValueLookup c) →
  (space ∉ key r)
  ∧ (slice c (start r) (end_ r)
     = prefix ++ key r ++ [space] ++ value r ++ suffix
     ∨ (value r = []
        ∧ slice c (start r) (end_ r) = prefix ++ key r ++ suffix)).
Proof.
  intros Hin.
  destruct (parsed_layout c) as (items & t & Hc & Hwf & _ & Hr & _).
  rewrite Hr in Hin.
  destruct (rangesOf_elem items t [] 0%nat c r eq_refl Hc Hin)
    as (it & Hit & -> & -> & ->).
  split; [apply blockKey_space_free|].
  apply tight_shape. by apply (proj1 (Forall_forall _ _) Hwf it Hit).
Qed.

Lemma parsed_block_shape_witness :
  mkRange (lit "stop") [] 2 24
    ∈ ValueRanges (getCommentValueLookup
                     (lit "a;" ++ prefix ++ lit "stop" ++ suffix ++ lit "b;"))
  ∧ slice (lit "a;" ++ prefix ++ lit "stop" ++ suffix ++ lit "b;") 2 24
    = prefix ++ lit "stop" ++ suffix.
Proof.
  assert (mkRange (lit "stop") [] 2 24
          ∈ ValueRanges (getCommentValueLookup
               (lit "a;" ++ prefix ++ lit "stop" ++ suffix ++ lit "b;")))
    as H by (vm_compute; left).
  split; [exact H|].
  destruct (proj2 (parsed_block_shape _ _ H)) as [Hl|[_ Hr]].
  - by vm_compute in Hl.
  - exact Hr.
Defined.

(** X4: the value map the parser returns holds, for every key, the value of
    the last range with that key, and nothing for a key that no range
    carries; no key is listed twice. *)
Theorem parsed_values_last_wins (c k : str) :
  objGet (values (getCommentValueLookup c)) k
  = value <$> last (filter (fun r => key r = k)
                      (ValueRanges (getCommentValueLookup c)))
  ∧ NoDup (values (getCommentValueLookup c)).*1.
Proof.
  split; [|apply parsed_NoDup].
  rewrite getCommentValueLookup_layout. cbn [values ValueRanges].
  rewrite objGet_fold_setRange. by destruct (last _).
Qed.

(** X5: what [formatValue] writes for a value holds no closing sequence,
    and escaping what is escaped changes nothing. *)
Theorem escapeClose_idempotent (v : str) :
  find starSlash (escapeClose v) = None
  ∧ escapeClose (escapeClose v) = escapeClose v.
Proof.
  split; [apply escapeClose_closed|].
  apply escapeClose_id, escapeClose_closed.
Qed.

(** X6: a block formatted for a key without a space is closed by its own
    closing marker whatever the value and whatever follows it: parsed at the
    head of any text, it is the first range, with that key, the escaped
    value and its own length. *)
Theorem formatted_block_first (k v rest : str) :
  space ∉ k →
  head (ValueRanges (getCommentValueLookup (formatValue k v ++ rest)))
  = Some (mkRange k (escapeClose v) 0 (len (formatValue k v))).
Proof.
  intros Hk. rewrite getCommentValueLookup_layout. cbn [ValueRanges].
  pose proof (layoutOf_item (length (formatValue k v ++ rest)) []
                (formatValue k v) rest eq_refl (formatValue_tight k v Hk))
    as H.
  cbn [app] in H. rewrite H. cbn [fst rangesOf head].
  rewrite blockKey_formatValue, blockValue_formatValue by done.
  done.
Qed.

Lemma formatted_block_first_witness :
  (space ∉ lit "output")
  ∧ head (ValueRanges (getCommentValueLookup
            (formatValue (lit "output") (lit "a */ b") ++ lit " */" ++ [newline])))
    = Some (mkRange (lit "output") (lit "a *\/ b") 0 32).
Proof.
  assert (space ∉ lit "output") as Hk
    by (apply (bool_decide_unpack _); by vm_compute).
  split; [exact Hk|].
  exact (formatted_block_first (lit "output") (lit "a */ b")
           (lit " */" ++ [newline]) Hk).
Defined.

(** X7: the text [getHash] digests is the content with every parsed range
    cut out: the pieces outside the ranges, joined in order. *)
Theorem fingerprint_of_outside (digest : str → str) (c : str) :
  getHash digest c
  = digest (concat (outside c 0 (ValueRanges (getCommentValueLookup c)))).
Proof.
  unfold getHash. f_equal.
  rewrite stripped_layout, getCommentValueLookup_layout. cbn [ValueRanges].
  pose proof (layoutOf_flatten (S (length c)) c) as Hc.
  destruct (layoutOf (S (length c)) c) as [items t]. cbn [fst snd] in *.
  pose proof (outside_layout items t [] 0%nat eq_refl) as Hout.
  cbn [app] in Hout. rewrite Hc in Hout. change (Z.of_nat 0) with 0 in Hout.
  rewrite Hout, concat_app. cbn [concat]. by rewrite app_nil_r.
Qed.

(** X8: the scan stops by itself: with any budget of rounds above the
    length of the content the loop returns what [getCommentValueLookup]
    returns. *)
Theorem scan_stops (fuel : nat) (c : str) :
  (length c < fuel)%nat →
  scanLoop fuel c 0 [] []
  = (values (getCommentValueLookup c), ValueRanges (getCommentValueLookup c)).
Proof.
  intros Hf. rewrite scanLoop_fuel by done.
  unfold getCommentValueLookup. by destruct (scanLoop _ _ _ _ _).
Qed.

Lemma scan_stops_witness :
  (length (formatValue (lit "k") (lit "v") ++ lit "x") < 1000)%nat
  ∧ scanLoop 1000 (formatValue (lit "k") (lit "v") ++ lit "x") 0 [] []
    = ([(lit "k", lit "v")], [mkRange (lit "k") (lit "v") 0 21]).
Proof.
  assert (length (formatValue (lit "k") (lit "v") ++ lit "x") < 1000)%nat
    as H by (vm_compute; lia).
  split; [exact H|].
  rewrite (scan_stops 1000 _ H). by vm_compute.
Defined.

(** * Writing and reading back *)

Section ReadBack.
Local Open Scope nat_scope.
Local Arguments N.eqb : simpl never.
Implicit Types c s t g B pre k v : str.
Implicit Types V o : Obj.
Implicit Types items : list (str * str).
Implicit Types Ps Qs Bs : list str.

Lemma parsed_layout_closed c :
  closedScan c →
  ∃ items t, c = flatten items t ∧ Forall wfItem items ∧ gapFree t
             ∧ ValueRanges (getCommentValueLookup c) = rangesOf 0 items
             ∧ values (getCommentValueLookup c)
               = fold_left setRange (rangesOf 0 items) [].
Proof.
  intros Hc%closedScan_gapFree.
  exists (layoutOf (S (length c)) c).1, (layoutOf (S (length c)) c).2.
  split; [by rewrite layoutOf_flatten|].
  split; [apply layoutOf_wf|]. split; [done|].
  by rewrite getCommentValueLookup_layout.
Qed.

(** Tight blocks in front of and behind a well-formed layout with a clean
    tail: the whole is a well-formed layout of the same blocks. *)
Lemma framed_layout Ps Qs items t :
  Forall tight Ps → Forall tight Qs → Forall wfItem items → gapFree t →
  ∃ items2 t2,
    concat Ps ++ flatten items t ++ concat Qs = flatten items2 t2
    ∧ Forall wfItem items2 ∧ gapFree t2
    ∧ map snd items2 = Ps ++ map snd items ++ Qs.
Proof.
  intros HP HQ Hit Ht.
  rewrite <- flatten_asItems, flatten_snoc, <- flatten_app.
  assert (∀ Bs, map snd (asItems Bs) = Bs) as Hsnd.
  { intros Bs. unfold asItems. rewrite map_map. apply map_id. }
  destruct HQ as [|Q Qs HQ HQs].
  - exists (asItems Ps ++ items), t. cbn [concat]. rewrite !app_nil_r.
    split; [done|]. split; [|split; [done|]].
    + apply Forall_app. split; [by apply asItems_wf|done].
    + by rewrite map_app, Hsnd.
  - exists ((asItems Ps ++ items) ++ (t, Q) :: asItems Qs), []. split.
    { rewrite (flatten_app (asItems Ps ++ items)). cbn [flatten concat].
      by rewrite flatten_asItems, app_nil_r. }
    split; [|split; [done|]].
    + repeat (apply Forall_app; split); try by apply asItems_wf.
      * done.
      * constructor; [done|by apply asItems_wf].
    + rewrite !map_app. cbn [map snd]. rewrite !Hsnd.
      by rewrite <- !app_assoc.
Qed.

Lemma rangesOf_pairs (o : nat) items :
  map (fun r => (key r, value r)) (rangesOf o items)
  = map (fun B => (blockKey B, blockValue B)) (map snd items).
Proof.
  revert o; induction items as [|[g B] items IH]; intros o; [done|].
  cbn [rangesOf map key value snd]. by rewrite IH.
Qed.

Lemma parse_of_layout items t :
  Forall wfItem items → gapFree t →
  map (fun r => (key r, value r))
    (ValueRanges (getCommentValueLookup (flatten items t)))
  = map (fun B => (blockKey B, blockValue B)) (map snd items).
Proof.
  intros Hwf Ht. rewrite getCommentValueLookup_layout. cbn [ValueRanges].
  rewrite layoutOf_complete; [apply rangesOf_pairs|done|by left|].
  pose proof (flatten_length items t Hwf). lia.
Qed.

Lemma pairs_elem (rs : list Range) Bs :
  map (fun r => (key r, value r)) rs
  = map (fun B => (blockKey B, blockValue B)) Bs →
  (∀ r, r ∈ rs → ∃ B, B ∈ Bs ∧ key r = blockKey B ∧ value r = blockValue B)
  ∧ (∀ B, B ∈ Bs → ∃ r, r ∈ rs ∧ key r = blockKey B).
Proof.
  intros H. split.
  - intros r Hr.
    apply (list_elem_of_fmap_2 (fun r => (key r, value r))) in Hr.
    change (map ?f ?l) with (f <$> l) in H. rewrite H in Hr.
    apply list_elem_of_fmap in Hr as (B & HB & Hin).
    exists B. by simplify_eq.
  - intros B HB.
    apply (list_elem_of_fmap_2 (fun B => (blockKey B, blockValue B))) in HB.
    change (map ?f ?l) with (f <$> l) in H. rewrite <- H in HB.
    apply list_elem_of_fmap in HB as (r & Hr & Hin).
    exists r. by simplify_eq.
Qed.

Lemma objGet_parsed_Some c k (P : str → Prop) :
  (∃ r, r ∈ ValueRanges (getCommentValueLookup c) ∧ key r = k) →
  (∀ r, r ∈ ValueRanges (getCommentValueLookup c) → key r = k → P (value r)) →
  ∃ w, objGet (values (getCommentValueLookup c)) k = Some w ∧ P w.
Proof.
  rewrite getCommentValueLookup_layout. cbn [values ValueRanges].
  set (rs := rangesOf 0 _). intros (r & Hr & Hk) HP.
  rewrite objGet_fold_setRange.
  destruct (last (filter _ rs)) as [r'|] eqn:E.
  - apply last_Some_elem_of, list_elem_of_filter in E as [E1 E2].
    exists (value r'). split; [done|]. by apply HP.
  - apply last_None in E.
    assert (r ∈ filter (fun r0 => key r0 = k) rs) as Hin
      by (by apply list_elem_of_filter).
    rewrite E in Hin. by apply elem_of_nil in Hin.
Qed.

Lemma objGet_parsed_None c k :
  (∀ r, r ∈ ValueRanges (getCommentValueLookup c) → key r ≠ k) →
  objGet (values (getCommentValueLookup c)) k = None.
Proof.
  intros H. destruct (objGet _ k) as [w|] eqn:E; [|done].
  assert (k ∈ (values (getCommentValueLookup c)).*1) as Hk
    by (apply objGet_elem; by eexists).
  apply parsed_keys, list_elem_of_fmap in Hk as (r & -> & Hr).
  by destruct (H r Hr).
Qed.

Lemma blockOf_read V k :
  space ∉ k → is_Some (objGet V k) →
  ∃ v', objGet V (blockKey (blockOf V k)) = Some v'
        ∧ blockKey (blockOf V k) = k
        ∧ blockValue (blockOf V k) = escapeClose v'.
Proof.
  intros Hk [v' Hv]. exists v'. unfold blockOf. rewrite Hv. cbn [default].
  unfold id. by rewrite blockKey_formatValue, blockValue_formatValue.
Qed.

Lemma newBlock_read V B :
  is_Some (objGet V (blockKey B)) →
  ∃ v', objGet V (blockKey (newBlock V B)) = Some v'
        ∧ blockKey (newBlock V B) = blockKey B
        ∧ (blockValue (newBlock V B) = v'
           ∨ blockValue (newBlock V B) = escapeClose v').
Proof.
  intros [v' Hv]. exists v'. unfold newBlock. rewrite Hv.
  case_bool_decide as Heq.
  - split; [done|]. split; [done|]. by left.
  - pose proof (blockKey_space_free B) as Hsp.
    rewrite blockKey_formatValue, blockValue_formatValue by done.
    split; [done|]. split; [done|]. by right.
Qed.

(** The blocks of a serialized content, as the parser finds them again. *)
Lemma serialized_parse c (V : list (str * str)) :
  closedScan c → Forall (fun kv => space ∉ kv.1) V →
  ∃ Bs,
    map (fun r => (key r, value r))
      (ValueRanges (getCommentValueLookup (serializeWith c V)))
    = map (fun B => (blockKey B, blockValue B)) Bs
    ∧ (∀ B, B ∈ Bs →
         ∃ v', objGet (values (assign (getCommentValueLookup c) V))
                 (blockKey B) = Some v'
               ∧ (blockValue B = v' ∨ blockValue B = escapeClose v'))
    ∧ (∀ k, is_Some (objGet (values (assign (getCommentValueLookup c) V)) k)
            → ∃ B, B ∈ Bs ∧ blockKey B = k).
Proof.
  intros Hclosed HV.
  destruct (parsed_layout_closed c Hclosed)
    as (items & t & Hc & Hwf & Ht & Hr & Hv).
  pose proof (parsed_keys c) as Hkeys. rewrite Hr in Hkeys.
  unfold serializeWith. rewrite assign_parts, Hr. cbn [values].
  set (V1 := fold_left setPair V (values (getCommentValueLookup c))) in *.
  replace (OriginalContents (getCommentValueLookup c)) with (flatten items t)
    by (by rewrite getCommentValueLookup_layout).
  set (l := mkLookup V1 (rangesOf 0 items) (flatten items t)).
  assert (∀ k, k ∈ newKeys l → (space ∉ k) ∧ is_Some (objGet V1 k)) as Hnew.
  { intros k [Hk1 Hk2]%list_elem_of_filter. cbn [values ValueRanges] in *.
    apply objKeys_elem in Hk2. split; [|by apply objGet_elem].
    apply fold_setPair_keys in Hk2 as [Hk2|Hk2].
    - by apply Hkeys in Hk2.
    - apply list_elem_of_fmap in Hk2 as (kv & -> & Hkv).
      by apply (proj1 (Forall_forall _ _) HV). }
  assert (∀ it, it ∈ items → is_Some (objGet V1 (blockKey it.2))) as Hold.
  { intros it Hit. apply objGet_elem, fold_setPair_keys. left. apply Hkeys.
    rewrite rangesOf_keys.
    apply (list_elem_of_fmap_2 (fun it => blockKey it.2)), Hit. }
  rewrite getContentsFromLookup_parts. unfold l at 2. rewrite rangeLoop_layout.
  unfold prepended, appended. change (values l) with V1.
  set (ksP := rev (filter (fun k => ¬ bulky V1 k) (newKeys l))).
  set (ksQ := filter (bulky V1) (newKeys l)).
  assert (∀ k, k ∈ ksP → k ∈ newKeys l) as HksP.
  { intros k Hk. apply elem_of_rev, list_elem_of_filter in Hk. tauto. }
  assert (∀ k, k ∈ ksQ → k ∈ newKeys l) as HksQ.
  { intros k Hk. apply list_elem_of_filter in Hk. tauto. }
  destruct (framed_layout (map (blockOf V1) ksP) (map (blockOf V1) ksQ)
              (rewriteItems V1 items) t)
    as (items2 & t2 & HX & Hwf2 & Ht2 & Hblocks); [..|done|].
  { apply blockOf_tight. intros k Hk. by apply Hnew, HksP. }
  { apply blockOf_tight. intros k Hk. by apply Hnew, HksQ. }
  { by apply rewriteItems_wf. }
  exists (map snd items2). rewrite HX. split; [by apply parse_of_layout|].
  rewrite Hblocks. split.
  - intros B HB. apply elem_of_app in HB as [HB|HB];
      [|apply elem_of_app in HB as [HB|HB]].
    + apply list_elem_of_fmap in HB as (k & -> & Hk).
      destruct (Hnew k (HksP k Hk)) as [Hsp Hsome].
      destruct (blockOf_read V1 k Hsp Hsome) as (v' & H1 & H2 & H3).
      exists v'. split; [done|by right].
    + apply list_elem_of_fmap in HB as ([g B'] & -> & Hit).
      apply list_elem_of_fmap in Hit as ([g0 B0] & [= -> ->] & Hit0).
      destruct (newBlock_read V1 B0 (Hold _ Hit0)) as (v' & H1 & H2 & H3).
      exists v'. by split.
    + apply list_elem_of_fmap in HB as (k & -> & Hk).
      destruct (Hnew k (HksQ k Hk)) as [Hsp Hsome].
      destruct (blockOf_read V1 k Hsp Hsome) as (v' & H1 & H2 & H3).
      exists v'. split; [done|by right].
  - intros k Hk.
    destruct (decide (k ∈ map key (rangesOf 0 items))) as [Hin|Hnin].
    + rewrite rangesOf_keys in Hin.
      apply list_elem_of_fmap in Hin as ([g0 B0] & -> & Hit0).
      destruct (newBlock_read V1 B0 (Hold _ Hit0)) as (v' & H1 & H2 & H3).
      exists (newBlock V1 B0). split; [|done].
      apply elem_of_app. right. apply elem_of_app. left.
      apply (list_elem_of_fmap_2 snd _ (g0, newBlock V1 B0)).
      apply (list_elem_of_fmap_2 (fun it => (it.1, newBlock V1 it.2)) _ (g0, B0)).
      done.
    + assert (k ∈ newKeys l) as Hknew.
      { apply list_elem_of_filter. split; [done|].
        by apply objKeys_elem, objGet_elem. }
      destruct (Hnew k Hknew) as [Hsp Hsome].
      destruct (blockOf_read V1 k Hsp Hsome) as (v' & H1 & H2 & H3).
      exists (blockOf V1 k). split; [|done].
      destruct (decide (bulky V1 k)) as [Hb|Hb].
      * apply elem_of_app. right. apply elem_of_app. right.
        apply list_elem_of_fmap_2, list_elem_of_filter. done.
      * apply elem_of_app. left.
        apply list_elem_of_fmap_2, elem_of_rev, list_elem_of_filter. done.
Qed.

Lemma readback c (V : list (str * str)) k :
  closedScan c → Forall (fun kv => space ∉ kv.1) V →
  match objGet (values (assign (getCommentValueLookup c) V)) k with
  | Some v =>
      ∃ w, objGet (values (getCommentValueLookup (serializeWith c V))) k
           = Some w ∧ (w = v ∨ w = escapeClose v)
  | None =>
      objGet (values (getCommentValueLookup (serializeWith c V))) k = None
  end.
Proof.
  intros Hclosed HV.
  destruct (serialized_parse c V Hclosed HV) as (Bs & Hpairs & Hread & Hhas).
  destruct (pairs_elem _ _ Hpairs) as [Hfwd Hbwd].
  destruct (objGet (values (assign _ V)) k) as [v|] eqn:E.
  - apply (objGet_parsed_Some _ k (fun w => w = v ∨ w = escapeClose v)).
    + destruct (Hhas k) as (B & HB & HkB); [by eexists|].
      destruct (Hbwd B HB) as (r & Hr & Hkr). exists r. split; [done|].
      congruence.
    + intros r Hr Hk. destruct (Hfwd r Hr) as (B & HB & HkB & HvB).
      destruct (Hread B HB) as (v' & Hv' & Hval).
      rewrite <- HkB, Hk, E in Hv'. simplify_eq. by rewrite HvB.
  - apply objGet_parsed_None. intros r Hr Hk.
    destruct (Hfwd r Hr) as (B & HB & HkB & HvB).
    destruct (Hread B HB) as (v' & Hv' & Hval).
    rewrite <- HkB, Hk, E in Hv'. done.
Qed.

Lemma objDelete_absent o k : objGet o k = None → objDelete o k = o.
Proof.
  induction o as [|[k0 v0] o IH]; [done|]. cbn [objGet objDelete].
  case_bool_decide; [done|]. intros Hget. by rewrite IH.
Qed.

(** The first loop alone, told with slices of the original. *)
Lemma rangeLoop_frame c V :
  (rangeLoop (mkLookup V (ValueRanges (getCommentValueLookup c)) c)).1
  = weave (outside c 0 (ValueRanges (getCommentValueLookup c)))
      (map (rewriteRange V c) (ValueRanges (getCommentValueLookup c))).
Proof.
  rewrite getCommentValueLookup_layout. cbn [ValueRanges].
  pose proof (layoutOf_flatten (S (length c)) c) as Hc.
  destruct (layoutOf (S (length c)) c) as [items t]. cbn [fst snd] in *.
  rewrite (rewriteRange_layout V items t [] 0 c) by done.
  pose proof (outside_layout items t [] 0 eq_refl) as Hout.
  cbn [app] in Hout. rewrite Hc in Hout. change (Z.of_nat 0) with 0%Z in Hout.
  rewrite Hout, (weave_layout (newBlock V)).
  rewrite <- Hc at 1. apply rangeLoop_layout.
Qed.

End ReadBack.

(** X9: for a content whose scan ends at no further opening marker and
    values assigned under keys without a space, parsing what the serializer
    wrote gives back the value map key for key: a key of the map is read
    back with its value, or with its escaped value where the block was
    newly formatted, and a key the map does not hold is not read back. *)
Theorem serialize_then_parse (c : str) (V : list (str * str)) (k : str) :
  closedScan c → Forall (fun kv => space ∉ kv.1) V →
  match objGet (values (assign (getCommentValueLookup c) V)) k with
  | Some v =>
      objGet (values (getCommentValueLookup (serializeWith c V))) k = Some v
      ∨ objGet (values (getCommentValueLookup (serializeWith c V))) k
        = Some (escapeClose v)
  | None =>
      objGet (values (getCommentValueLookup (serializeWith c V))) k = None
  end.
Proof.
  intros Hc HV. pose proof (readback c V k Hc HV) as H.
  destruct (objGet (values (assign _ V)) k) as [v|]; [|done].
  destruct H as (w & Hw & [->| ->]); [by left|by right].
Qed.

Lemma serialize_then_parse_witness :
  let c : str := lit "a();" ++ formatValue (lit "output") (lit "old") in
  let V := [(lit "output", lit "x*/y"); (lit "lastRunHash", lit "0f")] in
  closedScan c
  ∧ objGet (values (getCommentValueLookup (serializeWith c V))) (lit "output")
    = Some (lit "x*\/y")
  ∧ objGet (values (getCommentValueLookup (serializeWith c V)))
      (lit "lastRunHash") = Some (lit "0f").
Proof.
  intros c V.
  assert (closedScan c) as Hc by (by vm_compute).
  assert (Forall (fun kv : str * str => space ∉ kv.1) V) as HV.
  { repeat constructor; apply (bool_decide_unpack _); by vm_compute. }
  split; [exact Hc|]. split.
  - pose proof (serialize_then_parse c V (lit "output") Hc HV) as H.
    vm_compute in H. vm_compute. destruct H as [H|H]; [discriminate H|exact H].
  - pose proof (serialize_then_parse c V (lit "lastRunHash") Hc HV) as H.
    vm_compute in H. vm_compute. destruct H as [H|H]; exact H.
Defined.

(** * Checkpoints *)

Section CheckpointFacts.

Variable digest : str → str.
Variable scriptFolder : str.

Lemma deleteValue_absent (l : Lookup) (k : str) :
  objGet (values l) k = None → deleteValue l k = l.
Proof.
  intros H. unfold deleteValue. rewrite objDelete_absent by done.
  by destruct l.
Qed.

Lemma stop_not_set (l : Lookup) (out h : str) :
  objGet (values l) (lit "stop") = None →
  objGet (values (setValue (setValue l (lit "output") out)
                    (lit "lastRunHash") h)) (lit "stop") = None.
Proof.
  intros H. cbn [setValue values]. rewrite !objGet_objSet.
  rewrite decide_False by (intros E; by vm_compute in E).
  rewrite decide_False by (intros E; by vm_compute in E). done.
Qed.

(** A checkpoint that does not cancel, on a content whose scan is closed
    and that held no [stop] key when the run began: the guard holds and
    the content is written. *)
Lemma plain_checkpoint (f c out : str) (readResult : option str) :
  closedScan c →
  objGet (values (getCommentValueLookup c)) (lit "stop") = None →
  match readResult with
  | Some c' => objHas (values (getCommentValueLookup c')) (lit "stop") = false
  | None => True
  end →
  writeContents digest scriptFolder readResult None
    (mkJob f c (getCommentValueLookup c) (getHash digest c) out false)
  = (mkJob f
       (serializeWith c [(lit "output", out);
                         (lit "lastRunHash", getHash digest c)])
       (assign (getCommentValueLookup c)
          [(lit "output", out); (lit "lastRunHash", getHash digest c)])
       (getHash digest c) out false,
     [WriteFile (filePathOf scriptFolder f)
        (serializeWith c [(lit "output", out);
                          (lit "lastRunHash", getHash digest c)])],
     Returned).
Proof.
  intros Hc Hstop Hread.
  assert (Forall (fun kv : str * str => space ∉ kv.1)
            [(lit "output", out); (lit "lastRunHash", getHash digest c)])
    as HV by (repeat constructor; apply (bool_decide_unpack _); by vm_compute).
  pose proof (stripped_serializeWith c _ Hc HV) as Hsame.
  rewrite writeContents_whole. cbn [done fileName outputValues output hash].
  assert (deleteValue
            (setValue (setValue (getCommentValueLookup c) (lit "output") out)
               (lit "lastRunHash") (getHash digest c)) (lit "stop")
          = assign (getCommentValueLookup c)
              [(lit "output", out); (lit "lastRunHash", getHash digest c)])
    as Hdel by (by rewrite deleteValue_absent by by apply stop_not_set).
  assert (getHash digest
            (serializeWith c [(lit "output", out);
                              (lit "lastRunHash", getHash digest c)])
          = getHash digest c) as Hh by exact (f_equal digest Hsame).
  destruct readResult as [c'|]; cbn [fmap option_fmap option_map];
    rewrite ?Hread; rewrite Hdel;
    change (getContentsFromLookup (assign (getCommentValueLookup c) ?V))
      with (serializeWith c V);
    rewrite bool_decide_true by (by rewrite Hh); done.
Qed.

End CheckpointFacts.

(** X10: a checkpoint that writes without having killed the child writes
    to the file of the run, and what it writes has the fingerprint computed
    at the gate: content with another fingerprint is never written. *)
Theorem written_content_keeps_fingerprint (digest : str → str)
    (scriptFolder : str) (readResult writeError : option str) (j : Job)
    (p x : str) :
  WriteFile p x
    ∈ (writeContents digest scriptFolder readResult writeError j).1.2 →
  Kill (lit "SIGKILL")
    ∉ (writeContents digest scriptFolder readResult writeError j).1.2 →
  p = filePathOf scriptFolder (fileName j) ∧ getHash digest x = hash j.
Proof.
  rewrite writeContents_whole. destruct (done j); [by intros ?%elem_of_nil|].
  destruct readResult as [c'|]; cbn [fmap option_fmap option_map].
  - destruct (objHas (values (getCommentValueLookup c')) (lit "stop")).
    + cbn [negb andb]. intros _ Hno. exfalso. apply Hno.
      destruct writeError; cbn [fst snd app]; right; left.
    + cbn [negb andb]. case_bool_decide as Hh; cbn [negb];
        [|by intros ?%elem_of_nil].
      destruct writeError; cbn [fst snd app]; [by intros ?%elem_of_nil|].
      intros Hin%list_elem_of_singleton _. by simplify_eq.
  - cbn [negb andb]. case_bool_decide as Hh; cbn [negb];
      [|by intros ?%elem_of_nil].
    destruct writeError; cbn [fst snd app]; [by intros ?%elem_of_nil|].
    intros Hin%list_elem_of_singleton _. by simplify_eq.
Qed.

Lemma written_content_keeps_fingerprint_witness :
  let c : str := lit "run();" in
  let j := mkJob (lit "a.js") c (getCommentValueLookup c)
             (getHash (fun s => s) c) ([newline] ++ lit "hi") false in
  let x := serializeWith c [(lit "output", [newline] ++ lit "hi");
                            (lit "lastRunHash", lit "run();")] in
  WriteFile (lit "dir/a.js") x
    ∈ (writeContents (fun s => s) (lit "dir") (Some c) None j).1.2
  ∧ getHash (fun s => s) x = lit "run();".
Proof.
  intros c j x.
  assert (WriteFile (lit "dir/a.js") x
          ∈ (writeContents (fun s => s) (lit "dir") (Some c) None j).1.2)
    as Hin by (vm_compute; left).
  assert (Kill (lit "SIGKILL")
          ∉ (writeContents (fun s => s) (lit "dir") (Some c) None j).1.2)
    as Hno.
  { vm_compute. intros [E|E%elem_of_nil]%elem_of_cons; [discriminate E|done]. }
  split; [exact Hin|].
  exact (proj2 (written_content_keeps_fingerprint _ _ _ _ _ _ _ Hin Hno)).
Defined.

(** X11: for a content whose scan is closed and that holds no [stop] key,
    with a digest that holds no closing sequence, a checkpoint that does
    not cancel always passes its fingerprint check and writes the file; and
    the file it wrote, triggered again, is abandoned at the gate: a run
    that was recorded is not run again. *)
Theorem checkpoint_then_skip (digest : str → str) (scriptFolder f c out : str)
    (readResult : option str) :
  closedScan c →
  objGet (values (getCommentValueLookup c)) (lit "stop") = None →
  find starSlash (getHash digest c) = None →
  match readResult with
  | Some c' => objHas (values (getCommentValueLookup c')) (lit "stop") = false
  | None => True
  end →
  (writeContents digest scriptFolder readResult None
     (mkJob f c (getCommentValueLookup c) (getHash digest c) out false)).1.2
  = [WriteFile (filePathOf scriptFolder f)
       (serializeWith c [(lit "output", out);
                         (lit "lastRunHash", getHash digest c)])]
  ∧ (writeContents digest scriptFolder readResult None
       (mkJob f c (getCommentValueLookup c) (getHash digest c) out false)).2
    = Returned
  ∧ startRun digest scriptFolder f
      (Some (serializeWith c [(lit "output", out);
                              (lit "lastRunHash", getHash digest c)])) true
    = (None, []).
Proof.
  intros Hc Hstop Hhex Hread.
  rewrite (plain_checkpoint digest scriptFolder f c out readResult Hc Hstop Hread).
  split; [done|]. split; [done|].
  assert (Forall (fun kv : str * str => space ∉ kv.1)
            [(lit "output", out); (lit "lastRunHash", getHash digest c)])
    as HV by (repeat constructor; apply (bool_decide_unpack _); by vm_compute).
  pose proof (readback c _ (lit "lastRunHash") Hc HV) as Hback.
  assert (objGet (values (assign (getCommentValueLookup c)
                            [(lit "output", out);
                             (lit "lastRunHash", getHash digest c)]))
            (lit "lastRunHash") = Some (getHash digest c)) as Hset.
  { cbn [assign fold_left setValue values fst snd]. rewrite objGet_objSet.
    by rewrite decide_True. }
  rewrite Hset in Hback. destruct Hback as (w & Hw & Hor).
  assert (w = getHash digest c) as ->.
  { destruct Hor as [->| ->]; [done|by apply escapeClose_id]. }
  assert (getHash digest
            (serializeWith c [(lit "output", out);
                              (lit "lastRunHash", getHash digest c)])
          = getHash digest c) as Hh
    by exact (f_equal digest (stripped_serializeWith c _ Hc HV)).
  unfold startRun. cbn [negb].
  by rewrite bool_decide_true by (by rewrite Hw, Hh).
Qed.

Lemma checkpoint_then_skip_witness :
  let c : str := lit "run();" ++ formatValue (lit "lastRunHash") (lit "old") in
  closedScan c
  ∧ objGet (values (getCommentValueLookup c)) (lit "stop") = None
  ∧ find starSlash (getHash (fun s => s) c) = None
  ∧ startRun (fun s => s) (lit "dir") (lit "a.js")
      (Some (serializeWith c [(lit "output", lit "hi");
                              (lit "lastRunHash", getHash (fun s => s) c)]))
      true
    = (None, []).
Proof.
  intros c.
  assert (closedScan c) as Hc by (by vm_compute).
  assert (objGet (values (getCommentValueLookup c)) (lit "stop") = None)
    as Hs by (by vm_compute).
  assert (find starSlash (getHash (fun s => s) c) = None)
    as Hh by (by vm_compute).
  repeat (split; [assumption|]).
  exact (proj2 (proj2 (checkpoint_then_skip (fun s => s) (lit "dir")
                         (lit "a.js") c (lit "hi") None Hc Hs Hh I))).
Defined.

(** X12: serializing the parsed lookup with one key deleted cuts out every
    block of that key and leaves the rest of the content as it is, provided
    that blocks carrying the same key carry the same value.  With [stop]
    for the key this is what a cancelling checkpoint writes. *)
Theorem delete_cuts_blocks (c k : str) :
  sameKeySameValue (ValueRanges (getCommentValueLookup c)) = true →
  getContentsFromLookup (deleteValue (getCommentValueLookup c) k)
  = weave (outside c 0 (ValueRanges (getCommentValueLookup c)))
      (map (fun r => if bool_decide (key r = k) then []
                     else slice c (start r) (end_ r))
         (ValueRanges (getCommentValueLookup c))).
Proof.
  intros Hsame. rewrite getContentsFromLookup_parts.
  unfold prepended, appended, newKeys.
  cbn [deleteValue values ValueRanges].
  assert (∀ k', objGet (objDelete (values (getCommentValueLookup c)) k) k'
                = if decide (k = k') then None
                  else objGet (values (getCommentValueLookup c)) k') as Hget.
  { intros k'. apply objGet_objDelete, parsed_NoDup. }
  replace (filter _ (objKeys _)) with (@nil str).
  2:{ symmetry. apply filter_none. intros k' Hk' Hno. apply Hno.
      apply objKeys_elem, objGet_elem in Hk'. rewrite Hget in Hk'.
      case_decide; [by destruct Hk'|]. by apply parsed_keys, objGet_elem. }
  cbn [filter list_filter rev map concat app]. rewrite app_nil_r.
  unfold deleteValue.
  replace (OriginalContents (getCommentValueLookup c)) with c
    by (by rewrite getCommentValueLookup_layout).
  rewrite rangeLoop_frame. f_equal.
  apply map_ext_in. intros r Hr%list_elem_of_In.
  unfold rewriteRange. rewrite Hget.
  case_decide as Hk; case_bool_decide as Hk'; try congruence.
  rewrite parsed_value by done. by rewrite bool_decide_true.
Qed.

Lemma delete_cuts_blocks_witness :
  let c : str := lit "a();" ++ formatValue (lit "stop") []
                 ++ lit "b();" ++ formatValue (lit "output") (lit "hi") in
  sameKeySameValue (ValueRanges (getCommentValueLookup c)) = true
  ∧ getContentsFromLookup (deleteValue (getCommentValueLookup c) (lit "stop"))
    = lit "a();" ++ lit "b();" ++ formatValue (lit "output") (lit "hi").
Proof.
  intros c.
  assert (sameKeySameValue (ValueRanges (getCommentValueLookup c)) = true)
    as H by (by vm_compute).
  split; [exact H|].
  rewrite (delete_cuts_blocks c (lit "stop") H). by vm_compute.
Defined.

(** X13: what a checkpoint reads afresh from the file matters only for the
    [stop] key: a fresh content without it gives the same checkpoint as a
    read that fails, so whatever else was edited in the file meanwhile is
    overwritten from the values of the run. *)
Theorem fresh_read_only_tells_stop (digest : str → str) (scriptFolder : str)
    (c' : str) (writeError : option str) (j : Job) :
  objHas (values (getCommentValueLookup c')) (lit "stop") = false →
  writeContents digest scriptFolder (Some c') writeError j
  = writeContents digest scriptFolder None writeError j.
Proof.
  intros H. rewrite !writeContents_whole.
  cbn [fmap option_fmap option_map]. by rewrite H.
Qed.

Lemma fresh_read_only_tells_stop_witness :
  let c' : str := lit "edited();" ++ formatValue (lit "output") (lit "mine") in
  let j := mkJob (lit "a.js") (lit "run();")
             (getCommentValueLookup (lit "run();")) (lit "run();")
             [newline] false in
  objHas (values (getCommentValueLookup c')) (lit "stop") = false
  ∧ writeContents (fun s => s) (lit "dir") (Some c') None j
    = writeContents (fun s => s) (lit "dir") None None j.
Proof.
  intros c' j.
  assert (objHas (values (getCommentValueLookup c')) (lit "stop") = false)
    as H by (by vm_compute).
  split; [exact H|].
  exact (fresh_read_only_tells_stop (fun s => s) (lit "dir") c' None j H).
Defined.

(** * The child's events and the end of a run *)

Lemma deliver_adds (j : Job) (e : ChildEvent) :
  (deliver j e).1
  = mkJob (fileName j) (contents j) (outputValues j) (hash j)
      (output j ++ contribution e) (done j).
Proof.
  destruct j as [f c l h out d].
  destruct e as [err|code|[]|]; unfold deliver, onEvent, contribution;
    cbn [fileName contents outputValues hash output done];
    rewrite ?(bool_decide_true (lit _ = lit _)) by done;
    rewrite ?(bool_decide_false (lit "data" = lit "err")) by done;
    cbn [fst]; rewrite ?app_nil_r; try done.
  case_bool_decide; cbn [fst]; by rewrite ?app_nil_r.
Qed.

(** X14: whatever the child's events, [output] only grows: after them it is
    what it was, followed by what each event adds in turn (the chunks of
    [stdout], the trailer of a non-zero or missing exit code, the trailer of
    a spawn error); the rest of the job is as it was. *)
Theorem output_accumulates (j : Job) (es : list ChildEvent) :
  deliverAll j es
  = mkJob (fileName j) (contents j) (outputValues j) (hash j)
      (output j ++ concat (map contribution es)) (done j).
Proof.
  revert j; induction es as [|e es IH]; intros j.
  - cbn [deliverAll fold_left map concat]. rewrite app_nil_r. by destruct j.
  - cbn [deliverAll fold_left]. fold (deliverAll (deliver j e).1 es).
    rewrite IH, deliver_adds.
    cbn [fileName contents outputValues hash output done map concat].
    by rewrite <- app_assoc.
Qed.

(** X15: the final checkpoint of the first copy flushes the output: for a
    content whose scan is closed and that holds no [stop] key, when the
    fresh read shows no [stop] key and the write goes through, the end of
    the run logs, writes the file once and marks the job done, and the
    content written, parsed, holds the accumulated output under [output]
    (escaped where it holds a closing sequence). *)
Theorem final_checkpoint_flushes (digest : str → str)
    (scriptFolder f c out : str) (readResult : option str) :
  closedScan c →
  objGet (values (getCommentValueLookup c)) (lit "stop") = None →
  match readResult with
  | Some c' => objHas (values (getCommentValueLookup c')) (lit "stop") = false
  | None => True
  end →
  finishRun digest scriptFolder readResult None
    (mkJob f c (getCommentValueLookup c) (getHash digest c) out false)
  = (mkJob f
       (serializeWith c [(lit "output", out);
                         (lit "lastRunHash", getHash digest c)])
       (assign (getCommentValueLookup c)
          [(lit "output", out); (lit "lastRunHash", getHash digest c)])
       (getHash digest c) out true,
     [Log (lit "Finished " ++ f);
      WriteFile (filePathOf scriptFolder f)
        (serializeWith c [(lit "output", out);
                          (lit "lastRunHash", getHash digest c)])],
     Returned)
  ∧ (objGet (values (getCommentValueLookup
                       (serializeWith c [(lit "output", out);
                                         (lit "lastRunHash", getHash digest c)])))
       (lit "output") = Some out
     ∨ objGet (values (getCommentValueLookup
                         (serializeWith c [(lit "output", out);
                                           (lit "lastRunHash", getHash digest c)])))
         (lit "output") = Some (escapeClose out)).
Proof.
  intros Hc Hstop Hread. split.
  - unfold finishRun. cbn [done].
    rewrite (plain_checkpoint digest scriptFolder f c out readResult Hc Hstop
               Hread). done.
  - assert (Forall (fun kv : str * str => space ∉ kv.1)
              [(lit "output", out); (lit "lastRunHash", getHash digest c)])
      as HV
      by (repeat constructor; apply (bool_decide_unpack _); by vm_compute).
    pose proof (readback c _ (lit "output") Hc HV) as Hback.
    assert (objGet (values (assign (getCommentValueLookup c)
                              [(lit "output", out);
                               (lit "lastRunHash", getHash digest c)]))
              (lit "output") = Some out) as Hset.
    { cbn [assign fold_left setValue values fst snd]. rewrite !objGet_objSet.
      rewrite decide_False by (intros E; by vm_compute in E).
      by rewrite decide_True. }
    rewrite Hset in Hback. destruct Hback as (w & Hw & [->| ->]);
      [by left|by right].
Qed.

Lemma final_checkpoint_flushes_witness :
  let c : str := lit "console.log('hi')" in
  closedScan c
  ∧ objGet (values (getCommentValueLookup c)) (lit "stop") = None
  ∧ (finishRun (fun s => s) (lit "dir") (Some c) None
       (mkJob (lit "a.js") c (getCommentValueLookup c)
          (getHash (fun s => s) c) ([newline] ++ lit "hi" ++ [newline])
          false)).1.2
    = [Log (lit "Finished a.js");
       WriteFile (lit "dir/a.js")
         (formatValue (lit "lastRunHash") c ++ c
            ++ formatValue (lit "output")
                 ([newline] ++ lit "hi" ++ [newline]))].
Proof.
  intros c.
  assert (closedScan c) as Hc by (by vm_compute).
  assert (objGet (values (getCommentValueLookup c)) (lit "stop") = None)
    as Hs by (by vm_compute).
  repeat (split; [assumption|]).
  rewrite (proj1 (final_checkpoint_flushes (fun s => s) (lit "dir")
                    (lit "a.js") c ([newline] ++ lit "hi" ++ [newline])
                    (Some c) Hc Hs eq_refl)).
  by vm_compute.
Defined.

(** X16: the second copy of the program sets [done] before its last
    checkpoint, which therefore returns at once: the end of a run that is
    not done logs and writes nothing, whatever the file holds and whatever
    output has come in since the last periodic checkpoint. *)
Theorem later_copy_final_checkpoint_writes_nothing (digest : str → str)
    (scriptFolder : str) (readResult writeError : option str) (j : Job) :
  done j = false →
  finishRunLater digest scriptFolder readResult writeError j
  = (mkJob (fileName j) (contents j) (outputValues j) (hash j) (output j)
       true,
     [Log (lit "Finished " ++ fileName j)], Returned).
Proof.
  intros H. unfold finishRunLater. rewrite H.
  by rewrite writeContents_done by done.
Qed.

Lemma later_copy_final_checkpoint_writes_nothing_witness :
  (finishRunLater (fun s => s) (lit "dir") (Some (lit "run();")) None
     (mkJob (lit "a.js") (lit "run();") (getCommentValueLookup (lit "run();"))
        (lit "run();") ([newline] ++ lit "late output") false)).1.2
  = [Log (lit "Finished a.js")].
Proof.
  rewrite (later_copy_final_checkpoint_writes_nothing (fun s => s) (lit "dir")
             (Some (lit "run();")) None
             (mkJob (lit "a.js") (lit "run();")
                (getCommentValueLookup (lit "run();")) (lit "run();")
                ([newline] ++ lit "late output") false) eq_refl).
  by vm_compute.
Defined.

(** * More on the coordinator *)

Section CoordinatorFacts.
Local Open Scope nat_scope.
Implicit Types f g : str.
Implicit Types l names : list str.
Implicit Types s : System.

Lemma count_NoDup l : (∀ f, count f l ≤ 1) → NoDup l.
Proof.
  induction l as [|x l IH]; intros H; [constructor|].
  apply NoDup_cons. split.
  - intros Hx%count_pos. specialize (H x). rewrite count_cons in H.
    rewrite decide_True in H by done. lia.
  - apply IH. intros f. specialize (H f). rewrite count_cons in H. lia.
Qed.

Lemma startup_snoc names g :
  startup (names ++ [g]) = step (startup names) (Trigger g).
Proof. unfold startup. by rewrite map_app, runEvents_app. Qed.

Lemma startup_inv names :
  inFlight (startup names) = started (startup names)
  ∧ ∀ f, (f ∈ filesPending (coordinator (startup names)) ↔ f ∈ names)
         ∧ count f (started (startup names))
           = (if decide (f ∈ names) then 1 else 0)
         ∧ (f ∈ filesPendingTrigger (coordinator (startup names))
            ↔ 2 ≤ count f names).
Proof.
  induction names as [|g names [IH1 IH2]] using rev_ind.
  { split; [done|]. intros f. cbn.
    rewrite decide_False by (by intros ?%elem_of_nil).
    split; [|split; [done|]].
    - split; [by intros ?%not_elem_of_empty|by intros ?%elem_of_nil].
    - split; [by intros ?%not_elem_of_empty|lia]. }
  rewrite startup_snoc.
  destruct (startup names) as [[P T] fl st].
  cbn [coordinator filesPending filesPendingTrigger inFlight started] in *.
  destruct (decide (g ∈ P)) as [HgP|HgP].
  - rewrite step_Trigger_busy by done.
    cbn [coordinator filesPending filesPendingTrigger inFlight started].
    split; [done|]. intros f. destruct (IH2 f) as (Hp & Hc & Ht).
    assert (f ∈ names ++ [g] ↔ f ∈ names ∨ f = g) as Happ
      by (by rewrite elem_of_app, list_elem_of_singleton).
    assert (g ∈ names) as Hgn by (by apply (IH2 g)).
    split; [|split].
    + rewrite Hp, Happ. split; [by left|]. intros [?| ->]; done.
    + rewrite Hc. destruct (decide (f ∈ names)) as [Hin|Hnin].
      * rewrite decide_True; [done|]. apply Happ. by left.
      * rewrite decide_False; [done|]. intros [?| ->]%Happ; done.
    + rewrite count_app, count_single, elem_of_union, elem_of_singleton, Ht.
      destruct (decide (g = f)) as [->|Hgf].
      * assert (0 < count f names) by (by apply count_pos).
        split; [lia|by left].
      * split; [intros [?|?]; [congruence|lia]|intros; right; lia].
  - rewrite step_Trigger_idle by done.
    cbn [coordinator filesPending filesPendingTrigger inFlight started].
    split; [by rewrite IH1|]. intros f. destruct (IH2 f) as (Hp & Hc & Ht).
    assert (f ∈ names ++ [g] ↔ f ∈ names ∨ f = g) as Happ
      by (by rewrite elem_of_app, list_elem_of_singleton).
    assert (g ∉ names) as Hgn by (intros Hx; apply HgP, (IH2 g), Hx).
    split; [|split].
    + rewrite elem_of_union, elem_of_singleton, Hp, Happ. tauto.
    + rewrite count_app, count_single, Hc.
      destruct (decide (g = f)) as [->|Hgf].
      * rewrite decide_False by done.
        rewrite decide_True; [done|]. apply Happ. by right.
      * destruct (decide (f ∈ names)) as [Hin|Hnin].
        -- rewrite decide_True; [done|]. apply Happ. by left.
        -- rewrite decide_False; [done|]. intros [?|?]%Happ; congruence.
    + rewrite Ht, count_app, count_single.
      destruct (decide (g = f)) as [->|Hgf]; [|lia].
      assert (count f names = 0).
      { destruct (count f names) eqn:E; [done|].
        exfalso. apply Hgn, count_pos. lia. }
      lia.
Qed.

End CoordinatorFacts.

(** X17: whatever the events so far, the pending marks are exactly the
    names of the runs in flight, no name is in flight twice, and a trigger
    is queued only for a name that is pending. *)
Theorem pending_marks_are_runs_in_flight (es : list CoordEvent) :
  filesPending (coordinator (runEvents initial es))
  = list_to_set (inFlight (runEvents initial es))
  ∧ NoDup (inFlight (runEvents initial es))
  ∧ filesPendingTrigger (coordinator (runEvents initial es))
    ⊆ filesPending (coordinator (runEvents initial es)).
Proof.
  pose proof (coherent_runEvents initial es coherent_initial) as Hs.
  split; [|split].
  - apply set_eq. intros f. rewrite elem_of_list_to_set.
    symmetry. by apply coherent_inFlight.
  - apply count_NoDup. intros f. destruct (Hs f) as [Hc _].
    rewrite inFlightCount_count in Hc. rewrite Hc. case_decide; lia.
  - intros f. apply (Hs f).
Qed.

(** X18: an event about one file name leaves every other name as it was:
    its pending mark, its queued trigger, its runs in flight and the number
    of its runs started. *)
Theorem other_names_untouched (s : System) (e : CoordEvent) (f : str) :
  eventFile e ≠ f →
  (f ∈ filesPending (coordinator (step s e))
   ↔ f ∈ filesPending (coordinator s))
  ∧ (f ∈ filesPendingTrigger (coordinator (step s e))
     ↔ f ∈ filesPendingTrigger (coordinator s))
  ∧ inFlightCount f (step s e) = inFlightCount f s
  ∧ runsOf f (step s e) = runsOf f s.
Proof.
  intros Hne. destruct s as [[P T] fl st].
  rewrite !inFlightCount_count, !runsOf_count.
  destruct e as [g|g o]; cbn [eventFile] in Hne.
  - destruct (decide (g ∈ P)) as [HgP|HgP].
    + rewrite step_Trigger_busy by done.
      cbn [coordinator filesPending filesPendingTrigger inFlight started].
      rewrite elem_of_union, elem_of_singleton.
      split; [done|]. split; [|done]. split; [intros [?|?]|]; [congruence|done|].
      by right.
    + rewrite step_Trigger_idle by done.
      cbn [coordinator filesPending filesPendingTrigger inFlight started].
      rewrite elem_of_union, elem_of_singleton, !count_app, !count_single.
      rewrite decide_False by done.
      split; [split; [intros [?|?]; [congruence|done]|by right]|].
      split; [done|]. split; lia.
  - destruct (decide (g ∈ fl)) as [Hgfl|Hgfl];
      [|by rewrite step_Settled_none by done].
    destruct (decide (g ∈ T)) as [HgT|HgT].
    + rewrite step_Settled_again by done.
      cbn [coordinator filesPending filesPendingTrigger inFlight started].
      rewrite elem_of_union, !elem_of_difference, !elem_of_singleton.
      rewrite !count_app, !count_single, count_removeFirst.
      rewrite !(decide_False (P := g = f)) by done.
      split; [split; [intros [?|[? ?]]; [congruence|done]|]|].
      { intros ?. right. split; [done|congruence]. }
      split; [split; [tauto|]|split; lia].
      intros ?. split; [done|congruence].
    + rewrite step_Settled_last by done.
      cbn [coordinator filesPending filesPendingTrigger inFlight started].
      rewrite elem_of_difference, elem_of_singleton, count_removeFirst.
      rewrite (decide_False (P := g = f)) by done.
      split; [split; [tauto|]|].
      { intros ?. split; [done|congruence]. }
      split; [done|]. split; [lia|done].
Qed.

Lemma other_names_untouched_witness :
  let a : str := lit "a.js" in
  let b : str := lit "b.js" in
  let s := runEvents initial [Trigger a; Trigger b; Trigger b] in
  eventFile (Settled b Returned) ≠ a
  ∧ inFlightCount a (step s (Settled b Returned)) = 1%nat
  ∧ runsOf a (step s (Settled b Returned)) = 1%nat.
Proof.
  intros a b s.
  assert (eventFile (Settled b Returned) ≠ a) as H
    by (intros E; by vm_compute in E).
  split; [exact H|].
  destruct (other_names_untouched s (Settled b Returned) a H)
    as (_ & _ & -> & ->).
  split; by vm_compute.
Defined.

(** X19: at the start of the program, when [runOnFileName] is called for
    every entry of the directory listing before any run settles, exactly
    one run is started for every name listed, each of them is in flight,
    and a trigger is queued for exactly the names listed more than once. *)
Theorem startup_starts_one_run_per_name (names : list str) (f : str) :
  inFlight (startup names) = started (startup names)
  ∧ runsOf f (startup names) = (if decide (f ∈ names) then 1 else 0)%nat
  ∧ bool_decide (f ∈ filesPendingTrigger (coordinator (startup names)))
    = bool_decide (2 ≤ count f names)%nat.
Proof.
  destruct (startup_inv names) as [H1 H2]. destruct (H2 f) as (_ & Hc & Ht).
  split; [done|]. split; [by rewrite runsOf_count|].
  by apply bool_decide_ext.
Qed.

(** * Cancelling, and the end of the run *)

Section CancelFacts.

Variable digest : str → str.
Variable scriptFolder : str.

Lemma runTrace_from (s : RunState) (acc : list Effect) (es : list RunEvent) :
  fold_left (fun '(s, effects) e =>
               let '(s', effects') := runStep digest scriptFolder s e in
               (s', effects ++ effects'))
    es (s, acc)
  = ((runTrace digest scriptFolder s es).1,
     acc ++ (runTrace digest scriptFolder s es).2).
Proof.
  unfold runTrace. revert s acc. induction es as [|e es IH]; intros s acc.
  - cbn [fold_left fst snd]. by rewrite app_nil_r.
  - cbn [fold_left]. destruct (runStep digest scriptFolder s e) as [s' eff].
    rewrite (IH s' (acc ++ eff)), (IH s' ([] ++ eff)).
    cbn [fst snd app]. by rewrite app_assoc.
Qed.

Lemma runTrace_cons (s : RunState) (e : RunEvent) (es : list RunEvent) :
  runTrace digest scriptFolder s (e :: es)
  = ((runTrace digest scriptFolder (runStep digest scriptFolder s e).1 es).1,
     (runStep digest scriptFolder s e).2
       ++ (runTrace digest scriptFolder (runStep digest scriptFolder s e).1
             es).2).
Proof.
  unfold runTrace at 1. cbn [fold_left].
  destruct (runStep digest scriptFolder s e) as [s' eff].
  rewrite runTrace_from. done.
Qed.

Lemma runTrace_step (s s' : RunState) (e : RunEvent) (eff : list Effect)
    (es : list RunEvent) :
  runStep digest scriptFolder s e = (s', eff) →
  runTrace digest scriptFolder s (e :: es)
  = ((runTrace digest scriptFolder s' es).1,
     eff ++ (runTrace digest scriptFolder s' es).2).
Proof. intros H. by rewrite runTrace_cons, H. Qed.

Lemma runTrace_nil (s : RunState) : runTrace digest scriptFolder s [] = (s, []).
Proof. done. Qed.

Lemma deliver_StdoutEnd (j : Job) : deliver j StdoutEnd = (j, true).
Proof. done. Qed.

(** The body of a checkpoint whose fresh read holds a [stop] key: the
    child is sent SIGKILL, the freshly read lookup without its [stop] key
    becomes [outputValues] and its serialization is handed to
    [writeFilePromise]; [done] is as it was. *)
Lemma cancelling_body (j : Job) (c : str) :
  objHas (values (getCommentValueLookup c)) (lit "stop") = true →
  writeContentsBody digest scriptFolder (Some c) j
  = (mkJob (fileName j)
       (getContentsFromLookup
          (deleteValue (getCommentValueLookup c) (lit "stop")))
       (deleteValue (getCommentValueLookup c) (lit "stop"))
       (hash j) (output j) (done j),
     [Log (lit "Trying to stop previous run of file " ++ fileName j);
      Kill (lit "SIGKILL")],
     CallsWrite true (filePathOf scriptFolder (fileName j))
       (getContentsFromLookup
          (deleteValue (getCommentValueLookup c) (lit "stop")))).
Proof.
  intros H. unfold writeContentsBody. cbn [fmap option_fmap option_map].
  rewrite H. done.
Qed.

(** The lookup a cancelling checkpoint adopts holds every key of the fresh
    read with its value, but for [stop]. *)
Lemma adopted_values (c k : str) :
  objGet (values (deleteValue (getCommentValueLookup c) (lit "stop"))) k
  = if decide (lit "stop" = k) then None
    else objGet (values (getCommentValueLookup c)) k.
Proof. cbn [deleteValue values]. apply objGet_objDelete, parsed_NoDup. Qed.

(** The body of a checkpoint that does not cancel, on a lookup without
    [stop] key whose serialization keeps the fingerprint. *)
Lemma recording_body (j : Job) (readResult : option str) :
  match readResult with
  | Some c' => objHas (values (getCommentValueLookup c')) (lit "stop") = false
  | None => True
  end →
  objGet (values (outputValues j)) (lit "stop") = None →
  hash j
  = getHash digest
      (getContentsFromLookup
         (setValue (setValue (outputValues j) (lit "output") (output j))
            (lit "lastRunHash") (hash j))) →
  writeContentsBody digest scriptFolder readResult j
  = (mkJob (fileName j)
       (getContentsFromLookup
          (setValue (setValue (outputValues j) (lit "output") (output j))
             (lit "lastRunHash") (hash j)))
       (setValue (setValue (outputValues j) (lit "output") (output j))
          (lit "lastRunHash") (hash j))
       (hash j) (output j) (done j),
     [],
     CallsWrite false (filePathOf scriptFolder (fileName j))
       (getContentsFromLookup
          (setValue (setValue (outputValues j) (lit "output") (output j))
             (lit "lastRunHash") (hash j)))).
Proof.
  intros Hread Hstop Hh. unfold writeContentsBody.
  destruct readResult as [c'|]; cbn [fmap option_fmap option_map];
    rewrite ?Hread;
    rewrite (deleteValue_absent _ _ (stop_not_set _ _ _ Hstop));
    cbn [negb andb]; rewrite bool_decide_true by done; done.
Qed.

(** A checkpoint of [writeLoop] during which nothing else runs is
    [periodicCheckpoint]. *)
Lemma checkpoint_alone (j : Job) (m : MainState)
    (readResult writeError : option str) :
  done j = false →
  runTrace digest scriptFolder (mkRunState j LoopReading m)
    [LoopRead readResult; LoopWritten writeError]
  = (mkRunState
       (periodicCheckpoint digest scriptFolder readResult writeError j).1.1
       (match (writeContents digest scriptFolder readResult writeError j).2
        with
        | Returned => LoopSleeping
        | Threw _ => LoopEnded
        end) m,
     (periodicCheckpoint digest scriptFolder readResult writeError j).1.2).
Proof.
  intros Hdone. unfold periodicCheckpoint, writeContents. rewrite Hdone.
  unfold writeContentsSettle.
  destruct (writeContentsBody digest scriptFolder readResult j)
    as [[j2 eff] [k p x|err]] eqn:E; destruct writeError as [err'|].
  all: erewrite runTrace_step
         by (unfold runStep; cbn [loop main job]; rewrite E; reflexivity).
  all: erewrite runTrace_step
         by (unfold runStep, writeContentsSettle; cbn [loop main job];
             reflexivity).
  all: rewrite runTrace_nil; cbn [fst snd]; by rewrite ?app_nil_r.
Qed.

(** The end of a run during which nothing else runs is [finishRun]. *)
Lemma finish_alone (j : Job) (l : LoopState)
    (readResult writeError : option str) :
  runTrace digest scriptFolder (mkRunState j l MainWaiting)
    [Child StdoutEnd; MainRead readResult; MainWritten writeError]
  = (mkRunState (finishRun digest scriptFolder readResult writeError j).1.1 l
       (MainSettled
          (finishRun digest scriptFolder readResult writeError j).2),
     (finishRun digest scriptFolder readResult writeError j).1.2).
Proof.
  unfold finishRun, writeContents, writeContentsSettle.
  destruct (done j) eqn:Hdone.
  { erewrite runTrace_step
      by (unfold runStep; cbn [loop main job]; rewrite deliver_StdoutEnd, Hdone;
          reflexivity).
    erewrite runTrace_step by (unfold runStep; cbn [loop main job]; reflexivity).
    erewrite runTrace_step by (unfold runStep; cbn [loop main job]; reflexivity).
    by rewrite runTrace_nil. }
  erewrite runTrace_step
    by (unfold runStep; cbn [loop main job]; rewrite deliver_StdoutEnd, Hdone;
        reflexivity).
  destruct (writeContentsBody digest scriptFolder readResult j)
    as [[j2 eff] [k p x|err]] eqn:E; destruct writeError as [err'|].
  all: erewrite runTrace_step
         by (unfold runStep; cbn [loop main job]; rewrite E; reflexivity).
  all: erewrite runTrace_step
         by (unfold runStep, writeContentsSettle; cbn [loop main job];
             reflexivity).
  all: rewrite runTrace_nil;
    cbn [fst snd app fileName contents outputValues hash output done];
    by rewrite ?app_nil_r.
Qed.

(** When the write of the cancelling checkpoint settles before the child's
    [stdout] ends, the run ends as a cancelled run should: [done] is set,
    [runOnFileNameInner] returns without a further checkpoint and
    [writeLoop] ends at its next turn. *)
Lemma stop_settled_before_end (j : Job) (c : str) :
  done j = false →
  objHas (values (getCommentValueLookup c)) (lit "stop") = true →
  runTrace digest scriptFolder (forked j)
    [LoopRead (Some c); LoopWritten None; Child StdoutEnd; Timer]
  = (mkRunState
       (mkJob (fileName j)
          (getContentsFromLookup
             (deleteValue (getCommentValueLookup c) (lit "stop")))
          (deleteValue (getCommentValueLookup c) (lit "stop"))
          (hash j) (output j) true)
       LoopEnded (MainSettled Returned),
     [Log (lit "Trying to stop previous run of file " ++ fileName j);
      Kill (lit "SIGKILL");
      WriteFile (filePathOf scriptFolder (fileName j))
        (getContentsFromLookup
           (deleteValue (getCommentValueLookup c) (lit "stop")))]).
Proof.
  intros Hdone Hstop. unfold forked.
  erewrite runTrace_step
    by (unfold runStep; cbn [loop main job];
        rewrite (cancelling_body j c Hstop); reflexivity).
  erewrite runTrace_step by (unfold runStep; cbn [loop main job]; reflexivity).
  cbn [writeContentsSettle fileName contents outputValues hash output done
       orb].
  erewrite runTrace_step
    by (unfold runStep; cbn [loop main job]; rewrite deliver_StdoutEnd;
        cbn [done]; reflexivity).
  erewrite runTrace_step
    by (unfold runStep; cbn [loop main job done]; reflexivity).
  rewrite runTrace_nil. done.
Qed.

(** C3: a checkpoint whose fresh read finds a [stop] key kills the child,
    adopts the freshly read lookup without [stop] and hands its
    serialization to [writeFilePromise], but sets [done] only after that
    write has settled.  When the killed child's [stdout] ends first,
    [runOnFileNameInner] finds [done] false and makes its final
    checkpoint: with no [stop] key left in the file and the fingerprint
    kept, it sets the run's output and [lastRunHash] on the adopted lookup
    and writes the file a second time.  The output of the cancelled run is
    stored and a checkpoint is written after the cancelling one. *)
Theorem stop_overtaken_by_final_checkpoint (j : Job) (c : str)
    (readResult : option str) :
  let adopted := deleteValue (getCommentValueLookup c) (lit "stop") in
  let recorded :=
    setValue (setValue adopted (lit "output") (output j))
      (lit "lastRunHash") (hash j) in
  done j = false →
  objHas (values (getCommentValueLookup c)) (lit "stop") = true →
  match readResult with
  | Some c' => objHas (values (getCommentValueLookup c')) (lit "stop") = false
  | None => True
  end →
  hash j = getHash digest (getContentsFromLookup recorded) →
  runTrace digest scriptFolder (forked j)
    [LoopRead (Some c); Child StdoutEnd; LoopWritten None;
     MainRead readResult; MainWritten None]
  = (mkRunState
       (mkJob (fileName j) (getContentsFromLookup recorded) recorded
          (hash j) (output j) true)
       LoopSleeping (MainSettled Returned),
     [Log (lit "Trying to stop previous run of file " ++ fileName j);
      Kill (lit "SIGKILL");
      Log (lit "Finished " ++ fileName j);
      WriteFile (filePathOf scriptFolder (fileName j))
        (getContentsFromLookup adopted);
      WriteFile (filePathOf scriptFolder (fileName j))
        (getContentsFromLookup recorded)])
  ∧ objGet (values recorded) (lit "output") = Some (output j)
  ∧ objGet (values recorded) (lit "lastRunHash") = Some (hash j).
Proof.
  intros adopted recorded Hdone Hstop Hread Hh. split.
  - assert (objGet (values (outputValues
                (mkJob (fileName j) (getContentsFromLookup adopted) adopted
                   (hash j) (output j) true))) (lit "stop") = None)
      as Hgone.
    { cbn [outputValues]. unfold adopted. rewrite adopted_values.
      by rewrite decide_True. }
    unfold forked.
    erewrite runTrace_step
      by (unfold runStep; cbn [loop main job];
          rewrite (cancelling_body j c Hstop); reflexivity).
    fold adopted.
    erewrite runTrace_step
      by (unfold runStep; cbn [loop main job]; rewrite deliver_StdoutEnd;
          cbn [done fileName]; rewrite Hdone; reflexivity).
    erewrite runTrace_step
      by (unfold runStep; cbn [loop main job]; reflexivity).
    cbn [writeContentsSettle fileName contents outputValues hash output done
         orb].
    erewrite runTrace_step
      by (unfold runStep; cbn [loop main job];
          rewrite (recording_body _ readResult Hread Hgone Hh); reflexivity).
    cbn [fileName contents outputValues hash output done]. fold recorded.
    erewrite runTrace_step
      by (unfold runStep; cbn [loop main job]; reflexivity).
    cbn [writeContentsSettle fileName contents outputValues hash output done
         orb].
    rewrite runTrace_nil. done.
  - unfold recorded. cbn [setValue values]. rewrite !objGet_objSet.
    split; [|by rewrite decide_True].
    rewrite decide_False by (intros E; by vm_compute in E).
    by rewrite decide_True.
Qed.

End CancelFacts.

Lemma stop_overtaken_by_final_checkpoint_witness :
  let c : str := lit "run();" ++ formatValue (lit "stop") [] in
  let j := mkJob (lit "a.js") (lit "run();")
             (getCommentValueLookup (lit "run();")) (lit "run();")
             ([newline] ++ lit "partial") false in
  objHas (values (getCommentValueLookup c)) (lit "stop") = true
  ∧ (runTrace (fun s => s) (lit "dir") (forked j)
       [LoopRead (Some c); Child StdoutEnd; LoopWritten None;
        MainRead (Some (lit "run();")); MainWritten None]).2
    = [Log (lit "Trying to stop previous run of file a.js");
       Kill (lit "SIGKILL");
       Log (lit "Finished a.js");
       WriteFile (lit "dir/a.js") (lit "run();");
       WriteFile (lit "dir/a.js")
         (formatValue (lit "lastRunHash") (lit "run();") ++ lit "run();"
            ++ formatValue (lit "output") ([newline] ++ lit "partial"))].
Proof.
  intros c j.
  assert (objHas (values (getCommentValueLookup c)) (lit "stop") = true)
    as Hstop by (by vm_compute).
  split; [exact Hstop|].
  assert (hash j
          = getHash (fun s => s)
              (getContentsFromLookup
                 (setValue
                    (setValue (deleteValue (getCommentValueLookup c)
                                 (lit "stop"))
                       (lit "output") (output j))
                    (lit "lastRunHash") (hash j)))) as Hh by (by vm_compute).
  rewrite (proj1 (stop_overtaken_by_final_checkpoint (fun s => s) (lit "dir")
                    j c (Some (lit "run();")) eq_refl Hstop eq_refl Hh)).
  by vm_compute.
Defined.
